(** * range2cidr: converting an inclusive IP range into a list of CIDR blocks

    A shallow embedding of [range2cidr.go] (functions [Range2CIDRs] and
    [standardizeIP]) together with the few entry points of Go's [net] and
    [math/big] packages that the code calls, followed by the properties of
    the decomposition.

    Conventions.
    - A Go byte slice ([net.IP], [net.IPMask]) is an [option (list byte)]:
      [None] is the nil slice, [Some l] a non-nil slice holding [l].
    - A [*big.Int] is a [Z]; [Lsh], [And], [Or], [Not] are [Z.shiftl],
      [Z.land], [Z.lor], [Z.lnot] (two's complement of unbounded width, as in
      [math/big]).
    - Go [int] loop counters stay within [0, 128]; they are [nat] where the
      loop recurses on them and [Z] where the code subtracts them.
    - The main [for] loop has no syntactic bound, so [loop] takes a fuel
      argument and answers [None] when the fuel is used up (or when
      [FillBytes] would panic).  [Returns] hides the fuel. *)

From Stdlib Require Import ZArith List Bool Lia Sorted.
From Stdlib.Strings Require Import Byte.
Import ListNotations.
Local Open Scope Z_scope.

(** ** Bytes and slices *)

Definition byte_val (b : byte) : Z := Z.of_N (Byte.to_N b).

Definition byte_of (z : Z) : byte :=
  match Byte.of_N (Z.to_N (z mod 256)) with
  | Some b => b
  | None => x00
  end.

Definition slice := option (list byte).

(** [len(s)], which is 0 for the nil slice. *)
Definition len (s : slice) : nat :=
  match s with
  | None => 0%nat
  | Some l => length l
  end.

Definition bytes (s : slice) : list byte :=
  match s with
  | None => []
  | Some l => l
  end.

(** ** Package [net] *)

Module net.

Definition IP := slice.
Definition IPMask := slice.

Record IPNet := { IP_ : IP; Mask : IPMask }.

Definition IPv4len : nat := 4.
Definition IPv6len : nat := 16.

Definition isZeros (p : list byte) : bool :=
  forallb (fun b => Byte.eqb b x00) p.

(** [ip[10] == 0xff && ip[11] == 0xff] after ten zero bytes: the
    IPv4-mapped IPv6 form [::ffff:a.b.c.d]. *)
Definition isV4Mapped (l : list byte) : bool :=
  Nat.eqb (length l) IPv6len
  && isZeros (firstn 10 l)
  && Byte.eqb (nth 10 l x00) xff
  && Byte.eqb (nth 11 l x00) xff.

Definition To4 (ip : IP) : IP :=
  if Nat.eqb (len ip) IPv4len then ip
  else if isV4Mapped (bytes ip) then Some (firstn 4 (skipn 12 (bytes ip)))
  else None.

(** [IPv4(a, b, c, d)]: the 16-byte form of an IPv4 address. *)
Definition IPv4 (a b c d : byte) : IP :=
  Some (repeat x00 10 ++ [xff; xff; a; b; c; d]).

Definition To16 (ip : IP) : IP :=
  if Nat.eqb (len ip) IPv4len then
    IPv4 (nth 0 (bytes ip) x00) (nth 1 (bytes ip) x00)
         (nth 2 (bytes ip) x00) (nth 3 (bytes ip) x00)
  else if Nat.eqb (len ip) IPv6len then ip
  else None.

(** The loop of [CIDRMask]: [l] bytes still to fill, [n] one-bits still to
    place.  [^byte(0xff >> n)] is [255 xor (255 >> n)]. *)
Fixpoint maskBytes (l : nat) (n : Z) : list byte :=
  match l with
  | O => []
  | S l' =>
      if 8 <=? n then xff :: maskBytes l' (n - 8)
      else byte_of (Z.lxor 255 (Z.shiftr 255 n)) :: maskBytes l' 0
  end.

Definition CIDRMask (ones bits : Z) : IPMask :=
  if negb (bits =? 8 * Z.of_nat IPv4len) && negb (bits =? 8 * Z.of_nat IPv6len)
  then None
  else if (ones <? 0) || (ones >? bits) then None
  else Some (maskBytes (Z.to_nat (bits / 8)) ones).

(** [for v&0x80 != 0 { n++; v <<= 1 }] on a byte [v]; eight rounds are
    enough because the byte is not [0xff].  Returns the count and the
    final [v]. *)
Fixpoint leadingOnes (rounds : nat) (v n : Z) : Z * Z :=
  match rounds with
  | O => (n, v)
  | S r =>
      if Z.land v 128 =? 0 then (n, v)
      else leadingOnes r ((Z.shiftl v 1) mod 256) (n + 1)
  end.

Fixpoint simpleMaskLengthFrom (mask : list byte) (n : Z) : Z :=
  match mask with
  | [] => n
  | b :: rest =>
      if byte_val b =? 255 then simpleMaskLengthFrom rest (n + 8)
      else
        let '(n', v) := leadingOnes 8 (byte_val b) n in
        if negb (v =? 0) then -1
        else if forallb (fun c => byte_val c =? 0) rest then n'
        else -1
  end.

Definition simpleMaskLength (mask : IPMask) : Z :=
  simpleMaskLengthFrom (bytes mask) 0.

(** [IPMask.Size]: the number of leading ones and the length in bits, or
    [(0, 0)] for a mask that is not in canonical form. *)
Definition Size (m : IPMask) : Z * Z :=
  let ones := simpleMaskLength m in
  if ones =? -1 then (0, 0) else (ones, Z.of_nat (len m) * 8).

End net.

(** ** Package [math/big] *)

Module big.

(** [SetBytes]: the bytes read as a big-endian unsigned integer. *)
Definition SetBytes (buf : list byte) : Z :=
  fold_left (fun acc b => acc * 256 + byte_val b) buf 0.

(** Big-endian bytes of [x], zero-extended to [n] bytes. *)
Fixpoint toBytes (n : nat) (x : Z) : list byte :=
  match n with
  | O => []
  | S n' => toBytes n' (x / 256) ++ [byte_of x]
  end.

(** [FillBytes]: panics ([None]) when [|x|] does not fit the buffer. *)
Definition FillBytes (x : Z) (n : nat) : option (list byte) :=
  if Z.abs x <? 256 ^ Z.of_nat n then Some (toBytes n (Z.abs x)) else None.

End big.

(** ** [range2cidr.go] *)

Import net big.

(** The three [fmt.Errorf] values of [Range2CIDRs], named as in the
    specification: "无效的IP地址", "IP版本不匹配", "起始IP大于结束IP". *)
Inductive error := InvalidInput | FamilyMismatch | InvertedRange.

Definition standardizeIP (ip : IP) : IP :=
  match To4 ip with
  | Some v4 => Some v4
  | None => To16 ip
  end.

(** First inner loop, [for i := 0; i < maxLen; i++]: [todo] is
    [maxLen - i], the number of rounds left. *)
Fixpoint maxSizeLoop (todo i : nat) (diff : Z) (maxSize : nat) : nat :=
  match todo with
  | O => maxSize
  | S todo' =>
      let blockSize := Z.shiftl 1 (Z.of_nat i) in
      if blockSize >? diff then maxSize
      else maxSizeLoop todo' (S i) diff i
  end.

(** Second inner loop, [for i := maxSize; i >= 0; i--]; the last argument
    is the value [maxSize] keeps when no round breaks. *)
Fixpoint alignLoop (i : nat) (startInt endInt : Z) (maxSize : nat) : nat :=
  let mask := Z.shiftl 1 (Z.of_nat i) - 1 in
  let networkStart := Z.land startInt (Z.lnot mask) in
  let found :=
    if networkStart =? startInt then
      let networkEnd := Z.lor startInt mask in
      networkEnd <=? endInt
    else false in
  if found then i
  else match i with
       | O => maxSize
       | S i' => alignLoop i' startInt endInt maxSize
       end.

(** The value of [maxSize] when the CIDR is created. *)
Definition blockExp (maxLen : nat) (startInt endInt : Z) : nat :=
  let diff := endInt - startInt + 1 in
  let maxSize := maxSizeLoop maxLen 0 diff 0 in
  alignLoop maxSize startInt endInt maxSize.

(** The main loop, [for startInt.Cmp(endInt) <= 0]; [n] is [len(startIP)]. *)
Fixpoint loop (fuel : nat) (n : nat) (startInt endInt : Z)
    (cidrs : list IPNet) : option (list IPNet) :=
  if startInt <=? endInt then
    match fuel with
    | O => None
    | S fuel' =>
        let maxLen := (n * 8)%nat in
        let maxSize := blockExp maxLen startInt endInt in
        let prefixLen := Z.of_nat maxLen - Z.of_nat maxSize in
        match FillBytes startInt n with
        | None => None
        | Some ipBytes =>
            let cidr := {| IP_ := Some ipBytes;
                           Mask := CIDRMask prefixLen (Z.of_nat maxLen) |} in
            let increment := Z.shiftl 1 (Z.of_nat maxSize) in
            loop fuel' n (startInt + increment) endInt (cidrs ++ [cidr])
        end
    end
  else Some cidrs.

(** [Range2CIDRs] returns a pair: the slice of blocks (the nil slice is
    [[]]) and the error ([None] is Go's nil error).  The outer [option] is
    [None] when the fuel does not reach the end of the loop. *)
Definition Range2CIDRs (fuel : nat) (startIP endIP : IP)
    : option (list IPNet * option error) :=
  match startIP, endIP with
  | Some _, Some _ =>
      let startIP := standardizeIP startIP in
      let endIP := standardizeIP endIP in
      if negb (Nat.eqb (len startIP) (len endIP)) then
        Some ([], Some FamilyMismatch)
      else
        let startInt := SetBytes (bytes startIP) in
        let endInt := SetBytes (bytes endIP) in
        if startInt >? endInt then Some ([], Some InvertedRange)
        else
          match loop fuel (len startIP) startInt endInt [] with
          | Some cidrs => Some (cidrs, None)
          | None => None
          end
  | _, _ => Some ([], Some InvalidInput)
  end.

(** The call returns [r]: some amount of fuel reaches the [return]. *)
Definition Returns (startIP endIP : IP) (r : list IPNet * option error) : Prop :=
  exists fuel, Range2CIDRs fuel startIP endIP = Some r.

(** ** Reading a block, as the specification's data model does *)

Definition ip4 (a b c d : byte) : IP := Some [a; b; c; d].

(** The address held by a slice, as an unsigned integer. *)
Definition addr (ip : IP) : Z := SetBytes (bytes ip).

(** The slice of [n] bytes that holds the integer [x]. *)
Definition ofAddr (n : nat) (x : Z) : IP := Some (toBytes n x).

Definition width (b : IPNet) : Z := 8 * Z.of_nat (len (IP_ b)).
Definition networkAddress (b : IPNet) : Z := addr (IP_ b).
Definition prefixLength (b : IPNet) : Z := fst (Size (Mask b)).

(** Number of host bits, [width - prefixLength]. *)
Definition hostBits (b : IPNet) : Z := width b - prefixLength b.

(** Last address of the block, [networkAddress | (2^(width - prefixLength) - 1)]. *)
Definition lastAddress (b : IPNet) : Z :=
  Z.lor (networkAddress b) (2 ^ hostBits b - 1).

(** The address set of a block: [networkAddress .. lastAddress]. *)
Definition inBlock (b : IPNet) (x : Z) : Prop :=
  networkAddress b <= x <= lastAddress b.

(** A valid CIDR block: the prefix length is within the width and the
    network address is a multiple of the block size. *)
Definition validCIDR (b : IPNet) : Prop :=
  0 <= prefixLength b <= width b /\ networkAddress b mod 2 ^ hostBits b = 0.

(** A valid range: both slices present, normalised to the same width of 4
    or 16 bytes, and start <= end as unsigned integers. *)
Definition validRange (startIP endIP : IP) : Prop :=
  startIP <> None /\ endIP <> None /\
  len (standardizeIP startIP) = len (standardizeIP endIP) /\
  len (standardizeIP startIP) <> 0%nat /\
  addr (standardizeIP startIP) <= addr (standardizeIP endIP).


(** ** The run of the main loop, as a trace

    [steps n e s tr]: entering the loop with [startInt = s] and
    [endInt = e], the rounds executed until the guard fails are [tr], one
    pair (value of [startInt], value of [maxSize]) per round. *)

Inductive steps (n : nat) (e : Z) : Z -> list (Z * nat) -> Prop :=
| steps_done s : e < s -> steps n e s []
| steps_more s tr :
    s <= e ->
    steps n e (s + 2 ^ Z.of_nat (blockExp (n * 8) s e)) tr ->
    steps n e s ((s, blockExp (n * 8) s e) :: tr).

(** The [net.IPNet] appended by a round. *)
Definition mkBlock (n : nat) (p : Z * nat) : IPNet :=
  {| IP_ := Some (toBytes n (fst p));
     Mask := CIDRMask (Z.of_nat (n * 8) - Z.of_nat (snd p)) (Z.of_nat (n * 8)) |}.

(** [s] is a multiple of [2^k]. *)
Definition aligned (s : Z) (k : nat) : Prop := s mod 2 ^ Z.of_nat k = 0.

(** What every round of a run on [n]-byte addresses up to [e] satisfies:
    a block below the whole space, aligned, ending at or before [e]. *)
Definition goodStep (n : nat) (e : Z) (p : Z * nat) : Prop :=
  0 <= fst p /\ (snd p < n * 8)%nat /\ aligned (fst p) (snd p)
  /\ fst p + 2 ^ Z.of_nat (snd p) - 1 <= e.

(** The block of round [p] ends before the block of round [q] starts. *)
Definition before (p q : Z * nat) : Prop :=
  fst p + 2 ^ Z.of_nat (snd p) <= fst q.

(** Number of addresses of a block, [2^(width - prefixLength)]. *)
Definition blockSize (b : IPNet) : Z := 2 ^ hostBits b.

Definition total (l : list Z) : Z := fold_right Z.add 0 l.

(** The block that the degenerate run of width 0 appends: an empty address
    ([make([]byte, 0)]) and the nil mask of [CIDRMask(0, 0)]. *)
Definition emptyBlock : IPNet := {| IP_ := Some []; Mask := None |}.

(** * Properties *)

(** ** Bytes *)

Lemma byte_val_range b : 0 <= byte_val b < 256.
Proof.
  unfold byte_val. pose proof (Byte.to_N_bounded b). lia.
Qed.

Lemma byte_val_of z : byte_val (byte_of z) = z mod 256.
Proof.
  unfold byte_val, byte_of.
  pose proof (Z.mod_pos_bound z 256 ltac:(lia)) as Hm.
  destruct (Byte.of_N (Z.to_N (z mod 256))) eqn:E.
  - apply Byte.to_of_N in E. rewrite E. lia.
  - apply Byte.of_N_None_iff in E. lia.
Qed.

Lemma byte_val_inj a b : byte_val a = byte_val b -> a = b.
Proof.
  unfold byte_val. intros H. apply N2Z.inj in H.
  pose proof (Byte.of_to_N a) as Ha. rewrite H, Byte.of_to_N in Ha.
  congruence.
Qed.

Lemma SetBytes_snoc l b : SetBytes (l ++ [b]) = SetBytes l * 256 + byte_val b.
Proof. unfold SetBytes. now rewrite fold_left_app. Qed.

Lemma length_toBytes n x : length (toBytes n x) = n.
Proof.
  revert x. induction n as [|n IH]; intros x; simpl; [reflexivity|].
  rewrite length_app, IH. simpl. lia.
Qed.

Lemma SetBytes_toBytes_mod n x :
  SetBytes (toBytes n x) = x mod 256 ^ Z.of_nat n.
Proof.
  revert x. induction n as [|n IH]; intros x.
  - simpl. now rewrite Z.mod_1_r.
  - cbn [toBytes]. rewrite SetBytes_snoc, IH, byte_val_of.
    rewrite Nat2Z.inj_succ, Z.pow_succ_r by lia.
    rewrite (Z.rem_mul_r x 256 (256 ^ Z.of_nat n)) by lia. lia.
Qed.

Lemma SetBytes_toBytes n x :
  0 <= x < 256 ^ Z.of_nat n -> SetBytes (toBytes n x) = x.
Proof. intros H. rewrite SetBytes_toBytes_mod. now apply Z.mod_small. Qed.

Lemma SetBytes_range l : 0 <= SetBytes l < 256 ^ Z.of_nat (length l).
Proof.
  induction l as [|b l IH] using rev_ind.
  - cbn. lia.
  - rewrite SetBytes_snoc, length_app, Nat.add_comm. cbn [length Nat.add].
    rewrite Nat2Z.inj_succ, Z.pow_succ_r by lia.
    pose proof (byte_val_range b). lia.
Qed.

Lemma toBytes_SetBytes l : toBytes (length l) (SetBytes l) = l.
Proof.
  induction l as [|b l IH] using rev_ind; [reflexivity|].
  rewrite length_app, Nat.add_comm. cbn [length Nat.add toBytes].
  rewrite SetBytes_snoc. pose proof (byte_val_range b) as Hb.
  replace ((SetBytes l * 256 + byte_val b) / 256) with (SetBytes l)
    by (apply Z.div_unique with (r := byte_val b); lia).
  rewrite IH. f_equal. f_equal. apply byte_val_inj.
  rewrite byte_val_of.
  rewrite Z.add_comm, Z.mod_add by lia. now apply Z.mod_small.
Qed.

Lemma pow256 n : 256 ^ Z.of_nat n = 2 ^ Z.of_nat (n * 8).
Proof.
  rewrite Nat2Z.inj_mul, Z.mul_comm, Z.pow_mul_r by lia. reflexivity.
Qed.

Lemma FillBytes_fits x n :
  0 <= x < 256 ^ Z.of_nat n -> FillBytes x n = Some (toBytes n x).
Proof.
  intros H. unfold FillBytes. rewrite Z.abs_eq by lia.
  destruct (Z.ltb_spec x (256 ^ Z.of_nat n)); [reflexivity | lia].
Qed.

(** ** Masks and normalisation *)

Lemma Size_CIDRMask (n k : nat) :
  n = 4%nat \/ n = 16%nat -> (k <= n * 8)%nat ->
  Size (CIDRMask (Z.of_nat (n * 8) - Z.of_nat k) (Z.of_nat (n * 8)))
  = (Z.of_nat (n * 8) - Z.of_nat k, Z.of_nat (n * 8)).
Proof.
  intros Hn Hk.
  assert (H : forall m, forallb (fun k =>
              let '(a, b) := Size (CIDRMask (Z.of_nat (m * 8) - Z.of_nat k)
                                            (Z.of_nat (m * 8))) in
              (a =? Z.of_nat (m * 8) - Z.of_nat k) && (b =? Z.of_nat (m * 8)))
            (seq 0 (S (m * 8))) = true ->
          (k <= m * 8)%nat ->
          Size (CIDRMask (Z.of_nat (m * 8) - Z.of_nat k) (Z.of_nat (m * 8)))
          = (Z.of_nat (m * 8) - Z.of_nat k, Z.of_nat (m * 8))).
  { intros m Hall Hle. rewrite forallb_forall in Hall.
    specialize (Hall k). rewrite in_seq in Hall.
    specialize (Hall ltac:(lia)).
    destruct (Size _) as [a b]. apply andb_true_iff in Hall.
    destruct Hall as [Ha Hb]. apply Z.eqb_eq in Ha, Hb. congruence. }
  destruct Hn; subst n; apply H; trivial; vm_compute; reflexivity.
Qed.

Lemma standardizeIP_len ip :
  len (standardizeIP ip) = 0%nat \/ len (standardizeIP ip) = 4%nat
  \/ len (standardizeIP ip) = 16%nat.
Proof.
  unfold standardizeIP, To4, To16.
  destruct (Nat.eqb_spec (len ip) IPv4len) as [H4|H4].
  - destruct ip as [l|]; [right; left; exact H4 | discriminate].
  - destruct (isV4Mapped (bytes ip)) eqn:Hm.
    + right; left. unfold isV4Mapped in Hm.
      repeat (apply andb_true_iff in Hm; destruct Hm as [Hm ?]).
      apply Nat.eqb_eq in Hm. cbn [len].
      rewrite length_firstn, length_skipn, Hm. reflexivity.
    + destruct (Nat.eqb_spec (len ip) IPv6len) as [H6|H6].
      * destruct ip; [right; right; exact H6 | discriminate].
      * left; reflexivity.
Qed.

(** A slice of 4 bytes is returned as it is. *)
Lemma standardizeIP_4 l :
  length l = 4%nat -> standardizeIP (Some l) = Some l.
Proof.
  intros H. unfold standardizeIP, To4. cbn [len]. rewrite H. reflexivity.
Qed.

(** A slice of 16 bytes that is not IPv4-mapped is returned as it is. *)
Lemma standardizeIP_16 l :
  length l = 16%nat -> isV4Mapped l = false -> standardizeIP (Some l) = Some l.
Proof.
  intros H Hm. unfold standardizeIP, To4, To16. cbn [len bytes].
  rewrite H, Hm. reflexivity.
Qed.

(** ** Bit operations of the alignment test *)

Lemma mask_ones j : 0 <= j -> Z.shiftl 1 j - 1 = Z.ones j.
Proof. intros _. rewrite Z.shiftl_1_l, Z.ones_equiv. lia. Qed.

Lemma networkStart_eq s j :
  0 <= j ->
  Z.land s (Z.lnot (Z.shiftl 1 j - 1)) = s - s mod 2 ^ j.
Proof.
  intros Hj. rewrite mask_ones by lia.
  rewrite <- Z.ldiff_land, Z.ldiff_ones_r by lia.
  rewrite Z.shiftl_mul_pow2, Z.shiftr_div_pow2 by lia.
  pose proof (Z.div_mod s (2 ^ j)) as H.
  assert (0 < 2 ^ j) by (apply Z.pow_pos_nonneg; lia). lia.
Qed.

Lemma networkEnd_eq s j :
  0 <= j -> s mod 2 ^ j = 0 ->
  Z.lor s (Z.shiftl 1 j - 1) = s + 2 ^ j - 1.
Proof.
  intros Hj Hs. rewrite mask_ones by lia.
  assert (Hl : Z.land s (Z.ones j) = 0) by (rewrite Z.land_ones; lia).
  rewrite <- Z.lxor_lor, <- Z.add_nocarry_lxor by exact Hl.
  rewrite Z.ones_equiv. lia.
Qed.

Lemma pow2_pos (k : nat) : 0 < 2 ^ Z.of_nat k.
Proof. apply Z.pow_pos_nonneg; lia. Qed.

Lemma pow2_le_mono (j k : nat) : (j <= k)%nat -> 2 ^ Z.of_nat j <= 2 ^ Z.of_nat k.
Proof. intros H. apply Z.pow_le_mono_r; lia. Qed.

Lemma pow2_lt_mono (j k : nat) : (j < k)%nat -> 2 ^ Z.of_nat j < 2 ^ Z.of_nat k.
Proof. intros H. apply Z.pow_lt_mono_r; lia. Qed.

Lemma pow2_lt_inv (j k : nat) : 2 ^ Z.of_nat j < 2 ^ Z.of_nat k -> (j < k)%nat.
Proof.
  intros H. destruct (Nat.lt_ge_cases j k) as [|Hge]; [assumption|].
  apply pow2_le_mono in Hge. lia.
Qed.

Lemma pow2_S (k : nat) : 2 ^ Z.of_nat (S k) = 2 * 2 ^ Z.of_nat k.
Proof. rewrite Nat2Z.inj_succ, Z.pow_succ_r by lia. reflexivity. Qed.

Lemma aligned_le s (j k : nat) : (j <= k)%nat -> aligned s k -> aligned s j.
Proof.
  unfold aligned. intros Hjk Hk.
  apply Z.mod_divide in Hk; [|pose proof (pow2_pos k); lia].
  apply Z.mod_divide; [pose proof (pow2_pos j); lia|].
  apply Z.divide_trans with (2 ^ Z.of_nat k); [|assumption].
  exists (2 ^ (Z.of_nat k - Z.of_nat j)).
  rewrite <- Z.pow_add_r by lia. f_equal. lia.
Qed.

Lemma aligned_add s (k : nat) : aligned s k -> aligned (s + 2 ^ Z.of_nat k) k.
Proof.
  unfold aligned. intros H.
  rewrite <- Z.add_mod_idemp_r, Z.mod_same, Z.add_0_r
    by (pose proof (pow2_pos k); lia).
  assumption.
Qed.

(** A positive multiple of [2^k] is at least [2^k]. *)
Lemma aligned_pos_ge s (k : nat) : aligned s k -> 0 < s -> 2 ^ Z.of_nat k <= s.
Proof.
  unfold aligned. intros H Hs. pose proof (pow2_pos k).
  apply Z.mod_divide in H; [|lia]. apply Z.divide_pos_le; assumption.
Qed.

(** Adding [2^k] to an odd multiple of [2^k] gives a multiple of [2^(k+1)]. *)
Lemma aligned_add_up s (k : nat) :
  aligned s k -> ~ aligned s (S k) -> aligned (s + 2 ^ Z.of_nat k) (S k).
Proof.
  unfold aligned. intros Hk Hn. pose proof (pow2_pos k) as Hp.
  rewrite pow2_S, (Z.mul_comm 2) in *.
  rewrite Z.rem_mul_r in Hn |- * by lia.
  rewrite Hk in Hn.
  replace ((s + 2 ^ Z.of_nat k) mod 2 ^ Z.of_nat k) with 0
    by (symmetry; apply aligned_add; exact Hk).
  replace ((s + 2 ^ Z.of_nat k) / 2 ^ Z.of_nat k) with (s / 2 ^ Z.of_nat k + 1)
    by (apply Z.div_unique with (r := 0);
        [lia | pose proof (Z.div_mod s (2 ^ Z.of_nat k)); lia]).
  pose proof (Z.mod_pos_bound (s / 2 ^ Z.of_nat k) 2 ltac:(lia)).
  assert (Hodd : (s / 2 ^ Z.of_nat k) mod 2 = 1) by lia.
  rewrite <- Z.add_mod_idemp_l, Hodd by lia.
  change ((1 + 1) mod 2) with 0. lia.
Qed.

(** ** The two inner loops *)

Lemma maxSizeLoop_spec todo : forall i diff ms,
  let r := maxSizeLoop todo i diff ms in
  (r = ms /\ (todo = 0%nat \/ diff < 2 ^ Z.of_nat i))
  \/ ((i <= r < i + todo)%nat /\ 2 ^ Z.of_nat r <= diff
      /\ ((r + 1 = i + todo)%nat \/ diff < 2 ^ Z.of_nat (S r))).
Proof.
  induction todo as [|todo IH]; intros i diff ms; cbn [maxSizeLoop].
  - left. auto.
  - rewrite Z.shiftl_1_l.
    destruct (Z.gtb_spec (2 ^ Z.of_nat i) diff) as [Hgt|Hle].
    + left. split; [reflexivity | right; lia].
    + right. specialize (IH (S i) diff i). cbv zeta in IH.
      destruct IH as [[-> [->|Hlt]] | (Hr & Hp & Hmax)].
      * repeat split; lia.
      * repeat split; first [lia | right; assumption].
      * repeat split; first [lia | assumption].
Qed.

(** The test of one round of the second loop. *)
Lemma align_test s e (i : nat) :
  ((if Z.land s (Z.lnot (Z.shiftl 1 (Z.of_nat i) - 1)) =? s
    then Z.lor s (Z.shiftl 1 (Z.of_nat i) - 1) <=? e else false) = true)
  <-> (aligned s i /\ s + 2 ^ Z.of_nat i - 1 <= e).
Proof.
  unfold aligned. rewrite networkStart_eq by lia.
  destruct (Z.eqb_spec (s - s mod 2 ^ Z.of_nat i) s) as [Heq|Hne].
  - assert (Hm : s mod 2 ^ Z.of_nat i = 0) by lia.
    rewrite networkEnd_eq by (lia || assumption).
    rewrite Z.leb_le. tauto.
  - split; [discriminate | intros [Hm _]; lia].
Qed.

Lemma alignLoop_spec i : forall s e ms,
  s <= e ->
  let r := alignLoop i s e ms in
  (r <= i)%nat /\ aligned s r /\ s + 2 ^ Z.of_nat r - 1 <= e
  /\ forall j, (r < j <= i)%nat ->
               ~ (aligned s j /\ s + 2 ^ Z.of_nat j - 1 <= e).
Proof.
  induction i as [|i IH]; intros s e ms Hse; cbn [alignLoop]; cbv zeta.
  - pose proof (align_test s e 0) as Ht.
    destruct (if Z.land s _ =? s then _ else false).
    + destruct Ht as [Ht _]. specialize (Ht eq_refl).
      repeat split; try tauto; try lia.
    + exfalso. destruct Ht as [_ Ht].
      assert (false = true); [apply Ht | discriminate].
      unfold aligned. cbn. rewrite Z.mod_1_r. lia.
  - pose proof (align_test s e (S i)) as Ht.
    destruct (if Z.land s _ =? s then _ else false).
    + destruct Ht as [Ht _]. specialize (Ht eq_refl).
      repeat split; try tauto; try lia.
    + specialize (IH s e ms Hse). cbv zeta in IH.
      destruct IH as (Hr & Ha & Hf & Hmax).
      repeat split; try assumption; try lia.
      intros j Hj. destruct (Nat.eq_dec j (S i)) as [->|Hne].
      * intros Hc. apply Ht in Hc. discriminate.
      * apply Hmax. lia.
Qed.

(** What a round chooses: the largest exponent below [maxLen] whose block
    starts at [s], is aligned, and ends at or before [e]. *)
Lemma blockExp_spec w s e :
  (0 < w)%nat -> s <= e ->
  let k := blockExp w s e in
  (k < w)%nat /\ aligned s k /\ s + 2 ^ Z.of_nat k - 1 <= e
  /\ forall j, (j < w)%nat -> aligned s j -> s + 2 ^ Z.of_nat j - 1 <= e ->
               (j <= k)%nat.
Proof.
  intros Hw Hse. unfold blockExp. cbv zeta.
  set (diff := e - s + 1).
  pose proof (maxSizeLoop_spec w 0 diff 0) as Hm. cbv zeta in Hm.
  set (m := maxSizeLoop w 0 diff 0) in *.
  pose proof (alignLoop_spec m s e m Hse) as Hk. cbv zeta in Hk.
  set (k := alignLoop m s e m) in *.
  destruct Hk as (Hkm & Hal & Hfit & Hmax).
  assert (Hm' : (m < w)%nat /\ ((m + 1 = w)%nat \/ diff < 2 ^ Z.of_nat (S m))).
  { destruct Hm as [[_ [H0|H0]] | (H1 & _ & H2)].
    - lia.
    - cbn in H0. unfold diff in H0. lia.
    - split; [lia | destruct H2; [left; lia | right; assumption]]. }
  destruct Hm' as [Hmw Hmmax].
  repeat split; try assumption; try lia.
  intros j Hj Haj Hfj.
  destruct (Nat.le_gt_cases j k) as [|Hgt]; [assumption | exfalso].
  destruct (Nat.le_gt_cases j m) as [Hjm|Hjm].
  - apply (Hmax j); [lia | split; assumption].
  - destruct Hmmax as [Heq|Hlt]; [lia|].
    assert (2 ^ Z.of_nat (S m) <= 2 ^ Z.of_nat j) by (apply pow2_le_mono; lia).
    unfold diff in Hlt. lia.
Qed.

(** With no address bits at all the round still takes one address. *)
Lemma blockExp_0 s e : s <= e -> blockExp 0 s e = 0%nat.
Proof.
  intros Hse. unfold blockExp. cbn [maxSizeLoop].
  pose proof (alignLoop_spec 0 s e 0 Hse) as H. cbv zeta in H. lia.
Qed.

(** ** The main loop and its trace *)

Lemma loop_eq fuel n s e acc :
  loop fuel n s e acc =
  if s <=? e then
    match fuel with
    | O => None
    | S fuel' =>
        match FillBytes s n with
        | None => None
        | Some ipBytes =>
            loop fuel' n (s + Z.shiftl 1 (Z.of_nat (blockExp (n * 8) s e))) e
              (acc ++ [{| IP_ := Some ipBytes;
                          Mask := CIDRMask (Z.of_nat (n * 8)
                                            - Z.of_nat (blockExp (n * 8) s e))
                                           (Z.of_nat (n * 8)) |}])
        end
    end
  else Some acc.
Proof. destruct fuel; reflexivity. Qed.

Lemma steps_fun n e s tr1 :
  steps n e s tr1 -> forall tr2, steps n e s tr2 -> tr1 = tr2.
Proof.
  induction 1 as [s Hs | s tr Hs _ IH]; intros tr2 H2; inversion H2; subst;
    try lia; [reflexivity | f_equal; auto].
Qed.

(** Every round moves [startInt] forward, so the loop ends. *)
Lemma steps_total n e s : exists tr, steps n e s tr.
Proof.
  remember (Z.to_nat (e + 1 - s)) as d eqn:Hd.
  revert s Hd. induction d as [d IH] using lt_wf_ind. intros s Hd.
  destruct (Z.lt_ge_cases e s) as [Hlt|Hle].
  - exists []. now constructor.
  - pose proof (pow2_pos (blockExp (n * 8) s e)) as Hp.
    destruct (IH (Z.to_nat (e + 1 - (s + 2 ^ Z.of_nat (blockExp (n * 8) s e))))
                ltac:(lia) _ eq_refl) as [tr Htr].
    eexists. constructor; eassumption.
Qed.

(** When the loop returns, it has run the rounds of the trace. *)
Lemma loop_returns fuel : forall n s e acc r,
  0 <= s ->
  loop fuel n s e acc = Some r ->
  exists tr, steps n e s tr /\ (length tr <= fuel)%nat
             /\ r = acc ++ map (mkBlock n) tr.
Proof.
  induction fuel as [|fuel IH]; intros n s e acc r H0; rewrite loop_eq;
    destruct (Z.leb_spec s e) as [Hle|Hgt]; try discriminate.
  - intros [= <-]. exists []. cbn. rewrite app_nil_r.
    repeat split; [now constructor | lia].
  - unfold FillBytes. destruct (Z.abs s <? 256 ^ Z.of_nat n) eqn:Hfit;
      [|discriminate].
    rewrite Z.shiftl_1_l. pose proof (pow2_pos (blockExp (n * 8) s e)).
    intros Hl. apply IH in Hl; [|lia]. destruct Hl as (tr & Hst & Hlen & ->).
    exists ((s, blockExp (n * 8) s e) :: tr).
    repeat split; [now constructor | cbn; lia |].
    rewrite <- app_assoc. cbn. unfold mkBlock at 2. cbn [fst snd].
    rewrite Z.abs_eq by lia. reflexivity.
  - intros [= <-]. exists []. cbn. rewrite app_nil_r.
    repeat split; [now constructor | lia].
Qed.

(** With addresses that fit [n] bytes and fuel for every round of the
    trace, the loop returns the blocks of the trace. *)
Lemma steps_loop n e s tr :
  steps n e s tr -> 0 <= s -> e < 256 ^ Z.of_nat n ->
  forall fuel acc, (length tr <= fuel)%nat ->
  loop fuel n s e acc = Some (acc ++ map (mkBlock n) tr).
Proof.
  induction 1 as [s Hs | s tr Hs Hst IH]; intros H0 He fuel acc Hf;
    rewrite loop_eq.
  - destruct (Z.leb_spec s e); [lia|]. cbn. now rewrite app_nil_r.
  - destruct (Z.leb_spec s e); [|lia].
    destruct fuel as [|fuel]; [cbn in Hf; lia|].
    rewrite FillBytes_fits by lia. rewrite Z.shiftl_1_l.
    pose proof (pow2_pos (blockExp (n * 8) s e)).
    rewrite IH by (cbn in Hf; lia).
    rewrite <- app_assoc. reflexivity.
Qed.

Lemma Returns_fun startIP endIP r1 r2 :
  Returns startIP endIP r1 -> Returns startIP endIP r2 -> r1 = r2.
Proof.
  intros [f1 H1] [f2 H2]. unfold Range2CIDRs in *.
  destruct startIP, endIP; try congruence.
  destruct (negb _); [congruence|].
  destruct (_ >? _); [congruence|].
  destruct (loop f1 _ _ _ _) eqn:E1; [|discriminate].
  destruct (loop f2 _ _ _ _) eqn:E2; [|discriminate].
  apply loop_returns in E1, E2; try apply SetBytes_range.
  destruct E1 as (t1 & S1 & _ & ->), E2 as (t2 & S2 & _ & ->).
  rewrite (steps_fun _ _ _ _ S1 _ S2) in H1. congruence.
Qed.

Lemma length_bytes (ip : slice) : length (bytes ip) = len ip.
Proof. destruct ip; reflexivity. Qed.

Lemma addr_range (ip : IP) : 0 <= addr ip < 256 ^ Z.of_nat (len ip).
Proof. unfold addr. rewrite <- length_bytes. apply SetBytes_range. Qed.

(** Past the three checks, the call returns the blocks of the trace. *)
Lemma Range2CIDRs_run a b :
  len (standardizeIP (Some a)) = len (standardizeIP (Some b)) ->
  addr (standardizeIP (Some a)) <= addr (standardizeIP (Some b)) ->
  let n := len (standardizeIP (Some a)) in
  exists tr,
    steps n (addr (standardizeIP (Some b))) (addr (standardizeIP (Some a))) tr
    /\ forall fuel, (length tr <= fuel)%nat ->
        Range2CIDRs fuel (Some a) (Some b) = Some (map (mkBlock n) tr, None).
Proof.
  intros Hlen Hle n.
  destruct (steps_total n (addr (standardizeIP (Some b)))
              (addr (standardizeIP (Some a)))) as [tr Htr].
  exists tr. split; [exact Htr|]. intros fuel Hf.
  unfold Range2CIDRs. rewrite Hlen, Nat.eqb_refl. cbn [negb].
  fold (addr (standardizeIP (Some a))). fold (addr (standardizeIP (Some b))).
  destruct (Z.gtb_spec (addr (standardizeIP (Some a)))
              (addr (standardizeIP (Some b)))); [lia|].
  rewrite <- Hlen. fold n.
  rewrite (steps_loop _ _ _ _ Htr); trivial.
  - apply addr_range.
  - unfold n. rewrite Hlen. apply addr_range.
Qed.

(** [Range2CIDRs] returns on every input. *)
Lemma Returns_total startIP endIP : exists r, Returns startIP endIP r.
Proof.
  destruct startIP as [a|], endIP as [b|];
    try (eexists; exists 0%nat; reflexivity).
  destruct (Nat.eq_dec (len (standardizeIP (Some a)))
              (len (standardizeIP (Some b)))) as [Hlen|Hlen].
  - destruct (Z.le_gt_cases (addr (standardizeIP (Some a)))
                (addr (standardizeIP (Some b)))) as [Hle|Hgt].
    + destruct (Range2CIDRs_run a b Hlen Hle) as (tr & _ & Hrun).
      eexists. exists (length tr). apply Hrun. lia.
    + exists ([], Some InvertedRange), 0%nat. unfold Range2CIDRs.
      rewrite Hlen, Nat.eqb_refl. cbn [negb].
      fold (addr (standardizeIP (Some a))).
      fold (addr (standardizeIP (Some b))).
      destruct (Z.gtb_spec (addr (standardizeIP (Some a)))
                  (addr (standardizeIP (Some b)))); [reflexivity | lia].
  - exists ([], Some FamilyMismatch), 0%nat. unfold Range2CIDRs.
    apply Nat.eqb_neq in Hlen. rewrite Hlen. reflexivity.
Qed.

(** ** Properties of a trace *)

(** Name the exponent chosen by the round at [s] and bring in what
    [blockExp_spec] says about it. *)
Ltac round n s e Hs k Hmax :=
  let H := fresh "Hround" in
  let Heqk := fresh "Heqk" in
  pose proof (blockExp_spec (n * 8) s e ltac:(lia) Hs) as H;
  cbv zeta in H;
  remember (blockExp (n * 8) s e) as k eqn:Heqk in *;
  clear Heqk;
  pose proof (pow2_pos k);
  destruct H as (? & ? & ? & Hmax).

Section Trace.

Variables (n : nat) (e : Z).
Hypothesis Hn : (0 < n)%nat.

Lemma steps_good s tr :
  steps n e s tr -> 0 <= s ->
  Forall (fun p => s <= fst p /\ goodStep n e p) tr.
Proof.
  induction 1 as [s Hs | s tr Hs Hst IH]; intros H0; constructor.
  - round n s e Hs k Hmax.
    unfold goodStep. cbn [fst snd]. repeat split; trivial; lia.
  - round n s e Hs k Hmax.
    eapply Forall_impl; [|apply IH; lia].
    cbv beta. intros p [Hp1 Hp2]. split; [lia | exact Hp2].
Qed.

Lemma steps_sorted s tr :
  steps n e s tr -> 0 <= s -> StronglySorted before tr.
Proof.
  induction 1 as [s Hs | s tr Hs Hst IH]; intros H0; constructor.
  - apply IH. pose proof (pow2_pos (blockExp (n * 8) s e)). lia.
  - pose proof (pow2_pos (blockExp (n * 8) s e)) as Hp.
    eapply Forall_impl; [|apply (steps_good _ _ Hst); lia].
    cbv beta. unfold before. cbn [fst snd]. intros p [Hp1 _]. exact Hp1.
Qed.

(** The blocks of the trace cover [s .. e] and nothing else. *)
Lemma steps_cover s tr :
  steps n e s tr -> s <= e + 1 ->
  forall x, s <= x <= e <->
            exists p, In p tr /\ fst p <= x <= fst p + 2 ^ Z.of_nat (snd p) - 1.
Proof.
  induction 1 as [s Hs | s tr Hs Hst IH]; intros Hse x.
  - split; [lia | intros (p & [] & _)].
  - round n s e Hs k Hmax.
    specialize (IH ltac:(lia) x). split.
    + intros Hx. destruct (Z.lt_ge_cases x (s + 2 ^ Z.of_nat k)) as [Hlt|Hge].
      * exists (s, k). split; [now left | cbn [fst snd]; lia].
      * destruct IH as [IH _]. destruct (IH ltac:(lia)) as (p & Hin & Hpx).
        exists p. split; [now right | exact Hpx].
    + intros (p & [<-|Hin] & Hpx).
      * cbn [fst snd] in Hpx. lia.
      * destruct IH as [_ IH]. specialize (IH (ex_intro _ p (conj Hin Hpx))).
        lia.
Qed.

(** Once the remaining range is shorter than [2^k] and starts at a
    multiple of [2^k], at most [k] rounds remain. *)
Lemma steps_phase2 m : forall k s tr,
  (k <= m)%nat -> (k <= n * 8)%nat ->
  steps n e s tr -> aligned s k -> e - s + 1 < 2 ^ Z.of_nat k ->
  (length tr <= k)%nat.
Proof.
  induction m as [|m IH]; intros k s tr Hkm Hkw Hst Hal Hrem.
  - assert (k = 0%nat) by lia. subst k. change (2 ^ Z.of_nat 0) with 1 in Hrem.
    inversion Hst; subst; cbn [length]; lia.
  - inversion Hst as [s' Hs | s' tr' Hs Hst']; subst; [cbn; lia|].
    round n s e Hs j Hmax.
    assert (Hjk : (j < k)%nat) by (apply pow2_lt_inv; lia).
    assert (Hrem' : e - (s + 2 ^ Z.of_nat j) + 1 < 2 ^ Z.of_nat j).
    { destruct (Z.lt_ge_cases (e - (s + 2 ^ Z.of_nat j) + 1) (2 ^ Z.of_nat j))
        as [|Hge]; [assumption | exfalso].
      destruct (Nat.eq_dec (S j) k) as [<-|Hne];
        [rewrite pow2_S in Hrem; lia|].
      assert (HS : (S j <= j)%nat); [|lia].
      apply Hmax; [lia | apply aligned_le with k; [lia | exact Hal] |].
      rewrite pow2_S. lia. }
    assert (Hlen : (length tr' <= j)%nat).
    { apply (IH j (s + 2 ^ Z.of_nat j) tr'); trivial; try lia.
      now apply aligned_add. }
    cbn [length]. lia.
Qed.

(** When the round at a multiple of [2^t] takes less than [2^t], the end
    of the range is near: at most [t] rounds remain. *)
Lemma steps_limited t s tr :
  steps n e s tr -> s <= e -> (t < n * 8)%nat -> aligned s t ->
  (blockExp (n * 8) s e < t)%nat ->
  (length tr <= t)%nat.
Proof.
  intros Hst Hs Ht Hal Hlt.
  round n s e Hs j Hmax.
  assert (Hrem : e - s + 1 < 2 ^ Z.of_nat (S j)).
  { destruct (Z.lt_ge_cases (e - s + 1) (2 ^ Z.of_nat (S j)))
      as [|Hge]; [assumption | exfalso].
    assert (HS : (S j <= j)%nat); [|lia].
    apply Hmax; [lia | apply aligned_le with t; [lia | exact Hal] | lia]. }
  pose proof (steps_phase2 (S j) (S j) s _ ltac:(lia) ltac:(lia) Hst
                (aligned_le s (S j) t ltac:(lia) Hal) Hrem).
  lia.
Qed.

(** From a positive start that is a multiple of [2^t], at most
    [2 (w - 1) - t] rounds remain, where [w] is the width [8 n]; [d] is
    [w - 1 - t]. *)
Lemma steps_phase1 d : forall t s tr,
  (t + d = n * 8 - 1)%nat ->
  steps n e s tr -> 0 < s -> e < 2 ^ Z.of_nat (n * 8) -> aligned s t ->
  (length tr <= n * 8 - 1 + d)%nat.
Proof.
  induction d as [|d IH]; intros t s tr Htd Hst H0 He Hal.
  - (* t = w - 1, so s is the middle of the space *)
    destruct (Z.lt_ge_cases e s) as [Hlt|Hs];
      [inversion Hst; subst; cbn [length]; lia|].
    destruct (Nat.lt_ge_cases (blockExp (n * 8) s e) t) as [Hjt|Hjt].
    + pose proof (steps_limited t s tr Hst Hs ltac:(lia) Hal Hjt). lia.
    + inversion Hst as [s' Hs' | s' tr' Hs' Hst']; subst; [cbn; lia|].
      round n s e Hs j Hmax.
      assert (j = t) by lia. subst j.
      pose proof (aligned_pos_ge _ _ Hal H0) as Hge.
      assert (Hw2 : 2 ^ Z.of_nat (n * 8) = 2 * 2 ^ Z.of_nat t).
      { rewrite <- pow2_S. f_equal. lia. }
      inversion Hst'; subst; cbn [length]; lia.
  - destruct (Z.eq_dec (s mod 2 ^ Z.of_nat (S t)) 0) as [Hup|Hup].
    + specialize (IH (S t) s tr ltac:(lia) Hst H0 He Hup). lia.
    + destruct (Z.lt_ge_cases e s) as [Hlt|Hs];
        [inversion Hst; subst; cbn [length]; lia|].
      destruct (Nat.lt_ge_cases (blockExp (n * 8) s e) t) as [Hjt|Hjt].
      * pose proof (steps_limited t s tr Hst Hs ltac:(lia) Hal Hjt). lia.
      * inversion Hst as [s' Hs' | s' tr' Hs' Hst']; subst; [cbn; lia|].
        round n s e Hs j Hmax.
        assert (Hjt' : (j <= t)%nat).
        { destruct (Nat.le_gt_cases j t) as [|Hgt]; [assumption | exfalso].
          apply Hup. apply (aligned_le s (S t) j); [lia | assumption]. }
        assert (j = t) by lia. subst j.
        assert (Hlen : (length tr' <= n * 8 - 1 + d)%nat).
        { apply (IH (S t) (s + 2 ^ Z.of_nat t) tr'); trivial; try lia.
          now apply aligned_add_up. }
        cbn [length]. lia.
Qed.

(** The loop runs at most [2 w - 2] rounds, [w] being the width [8 n]. *)
Lemma steps_length s tr :
  steps n e s tr -> 0 <= s -> e < 2 ^ Z.of_nat (n * 8) ->
  (length tr <= 2 * (n * 8) - 2)%nat.
Proof.
  intros Hst H0 He.
  destruct (Z.eq_dec s 0) as [->|Hs].
  - inversion Hst as [s' Hs | s' tr' Hs Hst']; subst; [cbn; lia|].
    round n 0 e Hs j Hmax.
    assert (Hlen1 : (length tr' <= n * 8 - 1 + (n * 8 - 1 - j))%nat).
    { apply (steps_phase1 (n * 8 - 1 - j) j (0 + 2 ^ Z.of_nat j) tr');
        trivial; try lia.
      now apply aligned_add. }
    destruct (Z.lt_ge_cases (e - (0 + 2 ^ Z.of_nat j) + 1) (2 ^ Z.of_nat j))
      as [Hlt|Hge].
    + assert (Hlen2 : (length tr' <= j)%nat).
      { apply (steps_phase2 j j (0 + 2 ^ Z.of_nat j) tr'); trivial; try lia.
        now apply aligned_add. }
      cbn [length]. lia.
    + (* the block could not be doubled: it is already half of the space *)
      assert (Hjw : j = (n * 8 - 1)%nat).
      { destruct (Nat.eq_dec j (n * 8 - 1)) as [|Hne]; [assumption | exfalso].
        assert (HS : (S j <= j)%nat); [|lia].
        apply Hmax; [lia | unfold aligned; apply Z.mod_0_l;
                            pose proof (pow2_pos (S j)); lia |].
        rewrite pow2_S. lia. }
      cbn [length]. lia.
  - assert (Hal : aligned s 0) by (unfold aligned; cbn; apply Z.mod_1_r).
    pose proof (steps_phase1 (n * 8 - 1) 0 s tr ltac:(lia) Hst ltac:(lia) He Hal).
    lia.
Qed.

(** Two consecutive rounds never take the two halves of an aligned block
    twice their size, unless that block is the whole address space. *)
Lemma blockExp_adjacent s :
  s <= e ->
  let k := blockExp (n * 8) s e in
  s + 2 ^ Z.of_nat k <= e ->
  blockExp (n * 8) (s + 2 ^ Z.of_nat k) e = k ->
  aligned s (S k) -> S k = (n * 8)%nat.
Proof.
  intros Hs k Hs' Hk Hal.
  destruct (blockExp_spec (n * 8) s e ltac:(lia) Hs) as (Hlt & _ & _ & Hmax).
  destruct (blockExp_spec (n * 8) _ e ltac:(lia) Hs') as (_ & _ & Hfit & _).
  fold k in Hlt, Hmax. rewrite Hk in Hfit.
  destruct (Nat.eq_dec (S k) (n * 8)) as [|Hne]; [assumption | exfalso].
  assert (HS : (S k <= k)%nat); [|lia].
  apply Hmax; [lia | exact Hal | rewrite pow2_S; lia].
Qed.

End Trace.

(** ** Reading the blocks of a trace *)

Section Blocks.

Variables (n : nat) (e : Z) (p : Z * nat).
Hypothesis Hn : n = 4%nat \/ n = 16%nat.
Hypothesis He : e < 256 ^ Z.of_nat n.
Hypothesis Hp : goodStep n e p.

Lemma mkBlock_width : width (mkBlock n p) = Z.of_nat (n * 8).
Proof using Hn He Hp. unfold width, mkBlock. cbn [IP_ len]. rewrite length_toBytes. lia. Qed.

Lemma mkBlock_networkAddress : networkAddress (mkBlock n p) = fst p.
Proof using Hn He Hp.
  destruct Hp as (H0 & _ & _ & Hf). pose proof (pow2_pos (snd p)).
  unfold networkAddress, addr, mkBlock. cbn [IP_ bytes].
  apply SetBytes_toBytes. lia.
Qed.

Lemma mkBlock_prefixLength :
  prefixLength (mkBlock n p) = Z.of_nat (n * 8) - Z.of_nat (snd p).
Proof using Hn He Hp.
  destruct Hp as (_ & Hk & _). unfold prefixLength, mkBlock. cbn [Mask].
  rewrite Size_CIDRMask by (trivial; lia). reflexivity.
Qed.

Lemma mkBlock_hostBits : hostBits (mkBlock n p) = Z.of_nat (snd p).
Proof using Hn He Hp.
  unfold hostBits. rewrite mkBlock_width, mkBlock_prefixLength. lia.
Qed.

Lemma mkBlock_lastAddress :
  lastAddress (mkBlock n p) = fst p + 2 ^ Z.of_nat (snd p) - 1.
Proof using Hn He Hp.
  destruct Hp as (_ & _ & Hal & _).
  unfold lastAddress. rewrite mkBlock_hostBits, mkBlock_networkAddress.
  rewrite <- networkEnd_eq by (lia || exact Hal).
  now rewrite Z.shiftl_1_l.
Qed.

Lemma mkBlock_inBlock x :
  inBlock (mkBlock n p) x <-> fst p <= x <= fst p + 2 ^ Z.of_nat (snd p) - 1.
Proof using Hn He Hp.
  unfold inBlock. rewrite mkBlock_networkAddress, mkBlock_lastAddress.
  reflexivity.
Qed.

End Blocks.

(** ** Valid ranges *)

Lemma StronglySorted_nth {A} (R : A -> A -> Prop) l :
  StronglySorted R l ->
  forall i j a b, (i < j)%nat ->
    nth_error l i = Some a -> nth_error l j = Some b -> R a b.
Proof.
  induction 1 as [|x l Hs IH Hall]; intros i j a b Hij Hi Hj.
  - destruct i; discriminate.
  - destruct j as [|j]; [lia|]. cbn in Hj. destruct i as [|i].
    + cbn in Hi. injection Hi as <-.
      rewrite Forall_forall in Hall. apply Hall.
      eapply nth_error_In; eassumption.
    + cbn in Hi. apply (IH i j); trivial; lia.
Qed.

(** On a valid range the call returns, with no error, the blocks of the
    trace of the loop; the trace has the properties of section [Trace]. *)
Lemma valid_run startIP endIP :
  validRange startIP endIP ->
  let n := len (standardizeIP startIP) in
  let s := addr (standardizeIP startIP) in
  let e := addr (standardizeIP endIP) in
  (n = 4%nat \/ n = 16%nat) /\ 0 <= s <= e /\ e < 256 ^ Z.of_nat n /\
  exists tr,
    steps n e s tr /\ Forall (goodStep n e) tr /\
    forall fuel, (length tr <= fuel)%nat ->
      Range2CIDRs fuel startIP endIP = Some (map (mkBlock n) tr, None).
Proof.
  intros (Ha & Hb & Hlen & Hn0 & Hle) n s e.
  destruct startIP as [a|]; [|congruence].
  destruct endIP as [b|]; [|congruence].
  assert (Hn : n = 4%nat \/ n = 16%nat).
  { pose proof (standardizeIP_len (Some a)). unfold n. tauto. }
  pose proof (addr_range (standardizeIP (Some a))) as Hs.
  pose proof (addr_range (standardizeIP (Some b))) as He.
  rewrite <- Hlen in He. fold n s in Hs. fold n e in He. fold s e in Hle.
  repeat split; try lia; trivial.
  destruct (Range2CIDRs_run a b Hlen Hle) as (tr & Hst & Hrun).
  exists tr. repeat split; trivial.
  eapply Forall_impl; [|apply (steps_good n e ltac:(lia) _ _ Hst); lia].
  cbv beta. tauto.
Qed.

Lemma StronglySorted_map {A B} (R : A -> A -> Prop) (R' : B -> B -> Prop)
    (f : A -> B) l :
  (forall a b, R a b -> R' (f a) (f b)) ->
  StronglySorted R l -> StronglySorted R' (map f l).
Proof.
  intros HR. induction 1 as [|x l Hs IH Hall]; cbn; constructor; trivial.
  rewrite Forall_map. eapply Forall_impl; [|exact Hall]. auto.
Qed.

Lemma nth_error_map_inv {A B} (f : A -> B) l i b :
  nth_error (map f l) i = Some b ->
  exists a, nth_error l i = Some a /\ b = f a.
Proof.
  rewrite nth_error_map. destruct (nth_error l i) as [a|]; [|discriminate].
  intros [= <-]. eauto.
Qed.

(** The round at the start of an aligned block that ends at [e] takes the
    whole block. *)
Lemma blockExp_block w s (k : nat) :
  (k < w)%nat -> aligned s k ->
  blockExp w s (s + 2 ^ Z.of_nat k - 1) = k.
Proof.
  intros Hk Hal. pose proof (pow2_pos k) as Hp.
  destruct (blockExp_spec w s (s + 2 ^ Z.of_nat k - 1) ltac:(lia) ltac:(lia))
    as (Hj & Haj & Hfj & Hmax).
  set (j := blockExp w s _) in *.
  assert (Hjk : (k <= j)%nat) by (apply Hmax; trivial; lia).
  destruct (Nat.eq_dec j k) as [|Hne]; [assumption | exfalso].
  assert (Hlt : 2 ^ Z.of_nat k < 2 ^ Z.of_nat j) by (apply pow2_lt_mono; lia).
  lia.
Qed.

(** An address that is not 16 bytes long is not IPv4-mapped. *)
Lemma isV4Mapped_length l : isV4Mapped l = true -> length l = 16%nat.
Proof.
  unfold isV4Mapped. intros H.
  repeat (apply andb_true_iff in H; destruct H as [H ?]).
  now apply Nat.eqb_eq in H.
Qed.

Lemma standardizeIP_same n l :
  n = 4%nat \/ n = 16%nat -> length l = n -> isV4Mapped l = false ->
  standardizeIP (Some l) = Some l.
Proof.
  intros [->| ->] Hl Hm; [now apply standardizeIP_4 | now apply standardizeIP_16].
Qed.

Lemma To4_len ip : To4 ip = None \/ len (To4 ip) = 4%nat.
Proof.
  unfold To4. destruct (Nat.eqb_spec (len ip) IPv4len); [right; assumption|].
  destruct (isV4Mapped (bytes ip)) eqn:Hm; [right | left; reflexivity].
  apply isV4Mapped_length in Hm. cbn [len].
  rewrite length_firstn, length_skipn, Hm. reflexivity.
Qed.

(** An IPv4 address (4 bytes, or IPv4-mapped) and an IPv6 address (16 bytes,
    not IPv4-mapped) are normalised to different widths. *)
Lemma v4_v6_widths a b :
  To4 (Some a) <> None -> To4 (Some b) = None -> length b = 16%nat ->
  len (standardizeIP (Some a)) = 4%nat /\ len (standardizeIP (Some b)) = 16%nat.
Proof.
  intros Ha Hb Hlb. split.
  - unfold standardizeIP. destruct (To4_len (Some a)) as [E|E]; [congruence|].
    destruct (To4 (Some a)); [exact E | congruence].
  - unfold standardizeIP. rewrite Hb. unfold To16. cbn [len]. rewrite Hlb.
    cbn [Nat.eqb IPv4len IPv6len len]. exact Hlb.
Qed.

(** ** The scenarios of the specification, run on the code *)

Example range_192_168_1_0_to_2_255 :
  Range2CIDRs 2 (ip4 xc0 xa8 x01 x00) (ip4 xc0 xa8 x02 xff)
  = Some ([ {| IP_ := ip4 xc0 xa8 x01 x00; Mask := Some [xff; xff; xff; x00] |};
            {| IP_ := ip4 xc0 xa8 x02 x00; Mask := Some [xff; xff; xff; x00] |} ],
          None).
Proof. vm_compute. reflexivity. Qed.

Example range_single_address :
  Range2CIDRs 1 (ip4 xc0 xa8 x01 x05) (ip4 xc0 xa8 x01 x05)
  = Some ([ {| IP_ := ip4 xc0 xa8 x01 x05; Mask := Some [xff; xff; xff; xff] |} ],
          None).
Proof. vm_compute. reflexivity. Qed.

(** The IPv6 range of the demonstration: [...:efcf/128] and [...:efd0/125]. *)
Example range_ipv6_demo :
  option_map (fun r => (map networkAddress (fst r), map prefixLength (fst r), snd r))
    (Range2CIDRs 2 (ofAddr 16 0x2400ee00101c610000009d41e2a9efcf)
                   (ofAddr 16 0x2400ee00101c610000009d41e2a9efd7))
  = Some ([0x2400ee00101c610000009d41e2a9efcf; 0x2400ee00101c610000009d41e2a9efd0],
          [128; 125], None).
Proof. vm_compute. reflexivity. Qed.

(** An address given in the 16-byte IPv4-mapped form, as [net.ParseIP]
    returns it, is handled as the 4-byte address. *)
Example range_mapped_input :
  Range2CIDRs 2 (IPv4 xc0 xa8 x01 x00) (IPv4 xc0 xa8 x02 xff)
  = Range2CIDRs 2 (ip4 xc0 xa8 x01 x00) (ip4 xc0 xa8 x02 xff).
Proof. vm_compute. reflexivity. Qed.

Example range_inverted :
  Range2CIDRs 0 (ip4 xc0 xa8 x02 x00) (ip4 xc0 xa8 x01 x00)
  = Some ([], Some InvertedRange).
Proof. vm_compute. reflexivity. Qed.

(** * The claims *)

(** Discharge [validRange] on concrete addresses by evaluation. *)
Ltac valid_by_eval :=
  unfold validRange; repeat split;
  try discriminate; try (vm_compute; reflexivity);
  try (vm_compute; discriminate).

(** C2 (coverage).  On every valid range the call returns, with no error, a
    list of blocks whose address sets cover exactly the addresses from start
    to end: every address of the range is in some block and every address
    of a block is in the range (no gap), and no address is in two blocks of
    the list (no overlap). *)
Theorem coverage_exact startIP endIP :
  validRange startIP endIP ->
  exists cidrs,
    Returns startIP endIP (cidrs, None) /\
    (forall x, addr (standardizeIP startIP) <= x <= addr (standardizeIP endIP)
               <-> exists b, In b cidrs /\ inBlock b x) /\
    (forall i j b1 b2 x,
        nth_error cidrs i = Some b1 -> nth_error cidrs j = Some b2 ->
        inBlock b1 x -> inBlock b2 x -> i = j).
Proof.
  intros Hv. destruct (valid_run _ _ Hv) as (Hn & Hse & He & tr & Hst & Hgood & Hrun).
  set (n := len (standardizeIP startIP)) in *.
  set (s := addr (standardizeIP startIP)) in *.
  set (e := addr (standardizeIP endIP)) in *.
  assert (Hn0 : (0 < n)%nat) by lia.
  exists (map (mkBlock n) tr). split; [|split].
  - exists (length tr). apply Hrun. lia.
  - intros x. rewrite (steps_cover n e Hn0 s tr Hst ltac:(lia) x).
    rewrite Forall_forall in Hgood. split.
    + intros (p & Hin & Hx). exists (mkBlock n p). split; [now apply in_map|].
      apply (mkBlock_inBlock n e p); auto.
    + intros (b & Hin & Hx). apply in_map_iff in Hin.
      destruct Hin as (p & <- & Hin). exists p. split; [assumption|].
      apply (mkBlock_inBlock n e p); auto.
  - assert (Hlt : forall i j b1 b2 x, (i < j)%nat ->
              nth_error (map (mkBlock n) tr) i = Some b1 ->
              nth_error (map (mkBlock n) tr) j = Some b2 ->
              inBlock b1 x -> inBlock b2 x -> False).
    { intros i j b1 b2 x Hij H1 H2 Hx1 Hx2.
      apply nth_error_map_inv in H1, H2.
      destruct H1 as (p1 & H1 & ->), H2 as (p2 & H2 & ->).
      rewrite Forall_forall in Hgood.
      apply (mkBlock_inBlock n e p1) in Hx1;
        [|auto | auto | apply Hgood; eapply nth_error_In; eassumption].
      apply (mkBlock_inBlock n e p2) in Hx2;
        [|auto | auto | apply Hgood; eapply nth_error_In; eassumption].
      pose proof (StronglySorted_nth _ _ (steps_sorted n e Hn0 s tr Hst ltac:(lia))
                    i j p1 p2 Hij H1 H2) as Hb.
      unfold before in Hb. lia. }
    intros i j b1 b2 x H1 H2 Hx1 Hx2.
    destruct (Nat.lt_trichotomy i j) as [Hij|[Hij|Hij]]; [exfalso | assumption | exfalso].
    + exact (Hlt i j b1 b2 x Hij H1 H2 Hx1 Hx2).
    + exact (Hlt j i b2 b1 x Hij H2 H1 Hx2 Hx1).
Qed.

Lemma coverage_exact_witness :
  let startIP := ip4 xc0 xa8 x01 x00 in
  let endIP := ip4 xc0 xa8 x02 xff in
  validRange startIP endIP /\
  exists cidrs,
    Returns startIP endIP (cidrs, None) /\
    (forall x, addr (standardizeIP startIP) <= x <= addr (standardizeIP endIP)
               <-> exists b, In b cidrs /\ inBlock b x) /\
    (forall i j b1 b2 x,
        nth_error cidrs i = Some b1 -> nth_error cidrs j = Some b2 ->
        inBlock b1 x -> inBlock b2 x -> i = j).
Proof.
  intros startIP endIP.
  assert (Hv : validRange startIP endIP) by valid_by_eval.
  split; [exact Hv | exact (coverage_exact startIP endIP Hv)].
Defined.

(** C4 (ordering).  On every valid range the network addresses of the
    returned blocks are strictly ascending: each one is smaller than every
    one after it. *)
Theorem ascending_network_addresses startIP endIP :
  validRange startIP endIP ->
  exists cidrs,
    Returns startIP endIP (cidrs, None) /\
    StronglySorted Z.lt (map networkAddress cidrs).
Proof.
  intros Hv. destruct (valid_run _ _ Hv) as (Hn & Hse & He & tr & Hst & Hgood & Hrun).
  set (n := len (standardizeIP startIP)) in *.
  set (s := addr (standardizeIP startIP)) in *.
  set (e := addr (standardizeIP endIP)) in *.
  assert (Hn0 : (0 < n)%nat) by lia.
  exists (map (mkBlock n) tr). split.
  - exists (length tr). apply Hrun. lia.
  - rewrite map_map.
    rewrite (map_ext_in _ fst).
    + apply StronglySorted_map with (R := before);
        [|apply (steps_sorted n e Hn0 s tr Hst); lia].
      intros p q Hb. unfold before in Hb. pose proof (pow2_pos (snd p)). lia.
    + intros p Hin. rewrite Forall_forall in Hgood.
      apply (mkBlock_networkAddress n e p); auto.
Qed.

Lemma ascending_network_addresses_witness :
  let startIP := ip4 xc0 xa8 x01 x00 in
  let endIP := ip4 xc0 xa8 x02 xff in
  validRange startIP endIP /\
  exists cidrs,
    Returns startIP endIP (cidrs, None) /\
    StronglySorted Z.lt (map networkAddress cidrs).
Proof.
  intros startIP endIP.
  assert (Hv : validRange startIP endIP) by valid_by_eval.
  split; [exact Hv | exact (ascending_network_addresses startIP endIP Hv)].
Defined.

(** C5 (alignment).  On every valid range every returned block has a prefix
    length between 0 and the width, a network address that is a multiple of
    the block size [2^(width - prefixLength)], and a network address whose
    low [width - prefixLength] bits are zero. *)
Theorem blocks_aligned startIP endIP :
  validRange startIP endIP ->
  exists cidrs,
    Returns startIP endIP (cidrs, None) /\
    Forall (fun b =>
              0 <= prefixLength b <= width b /\
              networkAddress b mod 2 ^ (width b - prefixLength b) = 0 /\
              forall i, 0 <= i < width b - prefixLength b ->
                        Z.testbit (networkAddress b) i = false) cidrs.
Proof.
  intros Hv. destruct (valid_run _ _ Hv) as (Hn & Hse & He & tr & Hst & Hgood & Hrun).
  set (n := len (standardizeIP startIP)) in *.
  set (e := addr (standardizeIP endIP)) in *.
  exists (map (mkBlock n) tr). split.
  - exists (length tr). apply Hrun. lia.
  - rewrite Forall_map. eapply Forall_impl; [|exact Hgood].
    cbv beta. intros p Hp.
    pose proof (mkBlock_hostBits n e p Hn He Hp) as Hh. unfold hostBits in Hh.
    rewrite Hh, (mkBlock_networkAddress n e p Hn He Hp),
      (mkBlock_prefixLength n e p Hn He Hp), (mkBlock_width n e p Hn He Hp).
    destruct Hp as (H0 & Hk & Hal & Hf). repeat split; try lia; [exact Hal|].
    intros i Hi. unfold aligned in Hal.
    rewrite <- (Z.mod_pow2_bits_low (fst p) (Z.of_nat (snd p)) i) by lia.
    rewrite Hal. apply Z.bits_0.
Qed.

Lemma blocks_aligned_witness :
  let startIP := ip4 xc0 xa8 x01 x00 in
  let endIP := ip4 xc0 xa8 x02 xff in
  validRange startIP endIP /\
  exists cidrs,
    Returns startIP endIP (cidrs, None) /\
    Forall (fun b =>
              0 <= prefixLength b <= width b /\
              networkAddress b mod 2 ^ (width b - prefixLength b) = 0 /\
              forall i, 0 <= i < width b - prefixLength b ->
                        Z.testbit (networkAddress b) i = false) cidrs.
Proof.
  intros startIP endIP.
  assert (Hv : validRange startIP endIP) by valid_by_eval.
  split; [exact Hv | exact (blocks_aligned startIP endIP Hv)].
Defined.

(** C10 (iteration bound), as amended.  On every valid range of an address
    family of width [w] (32 or 128) the main loop ends within [2 w - 2]
    rounds: with fuel for that many rounds the call returns, and it returns
    at most [2 w - 2] blocks. *)
Theorem at_most_2w_minus_2_blocks startIP endIP :
  validRange startIP endIP ->
  let w := (len (standardizeIP startIP) * 8)%nat in
  (w = 32%nat \/ w = 128%nat) /\
  exists cidrs,
    (forall fuel, (2 * w - 2 <= fuel)%nat ->
       Range2CIDRs fuel startIP endIP = Some (cidrs, None)) /\
    (length cidrs <= 2 * w - 2)%nat.
Proof.
  intros Hv w. destruct (valid_run _ _ Hv) as (Hn & Hse & He & tr & Hst & Hgood & Hrun).
  set (n := len (standardizeIP startIP)) in *.
  set (s := addr (standardizeIP startIP)) in *.
  set (e := addr (standardizeIP endIP)) in *.
  assert (Hlen : (length tr <= 2 * (n * 8) - 2)%nat).
  { apply (steps_length n e ltac:(lia) s tr Hst); [lia|].
    rewrite <- pow256. exact He. }
  split; [unfold w; lia|].
  exists (map (mkBlock n) tr). split.
  - intros fuel Hf. apply Hrun. unfold w in Hf. lia.
  - rewrite length_map. exact Hlen.
Qed.

Lemma at_most_2w_minus_2_blocks_witness :
  let startIP := ip4 x00 x00 x00 x01 in
  let endIP := ip4 xff xff xff xfe in
  validRange startIP endIP /\
  exists cidrs,
    (forall fuel, (62 <= fuel)%nat ->
       Range2CIDRs fuel startIP endIP = Some (cidrs, None)) /\
    (length cidrs <= 62)%nat.
Proof.
  intros startIP endIP.
  assert (Hv : validRange startIP endIP) by valid_by_eval.
  split; [exact Hv | exact (proj2 (at_most_2w_minus_2_blocks startIP endIP Hv))].
Defined.

(** C10 as stated fails: 0.0.0.1 through 255.255.255.254 is a valid IPv4
    range (width 32) and the call returns 62 blocks, more than 32. *)
Lemma at_most_w_blocks_fails :
  let startIP := ip4 x00 x00 x00 x01 in
  let endIP := ip4 xff xff xff xfe in
  validRange startIP endIP /\
  (len (standardizeIP startIP) * 8 = 32)%nat /\
  exists cidrs,
    Range2CIDRs 62 startIP endIP = Some (cidrs, None) /\
    length cidrs = 62%nat /\
    ~ (length cidrs <= 32)%nat.
Proof.
  intros startIP endIP. split; [valid_by_eval|]. split; [reflexivity|].
  destruct (Range2CIDRs 62 startIP endIP) as [[cidrs [err|]]|] eqn:E;
    try (vm_compute in E; discriminate).
  exists cidrs. split; [reflexivity|].
  assert (Hl : length cidrs = 62%nat).
  { assert (H : option_map (fun r => length (fst r)) (Range2CIDRs 62 startIP endIP)
                = Some 62%nat) by (vm_compute; reflexivity).
    rewrite E in H. cbn in H. congruence. }
  split; [exact Hl | lia].
Qed.

(** C9 (re-decomposition), as amended.  On every valid range, for every
    returned block B whose network address and last address are not
    IPv4-mapped IPv6 addresses (none is for an IPv4 range), the call on B's
    network address and B's last address
    [networkAddress | (2^(width - prefixLength) - 1)] returns exactly the
    list of the single block B. *)
Theorem redecompose_block startIP endIP :
  validRange startIP endIP ->
  exists cidrs,
    Returns startIP endIP (cidrs, None) /\
    forall B, In B cidrs ->
      let lastIP := ofAddr (len (IP_ B)) (lastAddress B) in
      isV4Mapped (bytes (IP_ B)) = false ->
      isV4Mapped (bytes lastIP) = false ->
      Returns (IP_ B) lastIP ([B], None).
Proof.
  intros Hv. destruct (valid_run _ _ Hv) as (Hn & Hse & He & tr & Hst & Hgood & Hrun).
  set (n := len (standardizeIP startIP)) in *.
  set (e := addr (standardizeIP endIP)) in *.
  exists (map (mkBlock n) tr). split; [exists (length tr); apply Hrun; lia|].
  intros B HB lastIP Hm1 Hm2. apply in_map_iff in HB.
  destruct HB as (p & <- & Hin). rewrite Forall_forall in Hgood.
  pose proof (Hgood p Hin) as Hp.
  unfold lastIP in *. clear lastIP.
  rewrite (mkBlock_lastAddress n e p Hn He Hp) in *.
  destruct p as [a k]. destruct Hp as (H0 & Hk & Hal & Hf).
  cbn [fst snd mkBlock IP_ len bytes] in *. rewrite length_toBytes in *.
  unfold ofAddr in *. pose proof (pow2_pos k) as Hpk.
  assert (Hs1 : standardizeIP (Some (toBytes n a)) = Some (toBytes n a))
    by (apply (standardizeIP_same n); trivial; apply length_toBytes).
  assert (Hs2 : standardizeIP (Some (toBytes n (a + 2 ^ Z.of_nat k - 1)))
                = Some (toBytes n (a + 2 ^ Z.of_nat k - 1)))
    by (apply (standardizeIP_same n); trivial; apply length_toBytes).
  exists 1%nat. unfold Range2CIDRs. rewrite Hs1, Hs2. cbn [len bytes].
  rewrite !length_toBytes, Nat.eqb_refl. cbn [negb].
  rewrite !SetBytes_toBytes by lia.
  destruct (Z.gtb_spec a (a + 2 ^ Z.of_nat k - 1)); [lia|].
  cbn [loop]. destruct (Z.leb_spec a (a + 2 ^ Z.of_nat k - 1)); [|lia].
  rewrite FillBytes_fits by lia.
  rewrite blockExp_block by assumption. rewrite Z.shiftl_1_l.
  destruct (Z.leb_spec (a + 2 ^ Z.of_nat k) (a + 2 ^ Z.of_nat k - 1)); [lia|].
  reflexivity.
Qed.

Lemma redecompose_block_witness :
  let startIP := ip4 xc0 xa8 x01 x00 in
  let endIP := ip4 xc0 xa8 x02 xff in
  validRange startIP endIP /\
  exists cidrs,
    Returns startIP endIP (cidrs, None) /\
    forall B, In B cidrs ->
      let lastIP := ofAddr (len (IP_ B)) (lastAddress B) in
      isV4Mapped (bytes (IP_ B)) = false ->
      isV4Mapped (bytes lastIP) = false ->
      Returns (IP_ B) lastIP ([B], None).
Proof.
  intros startIP endIP.
  assert (Hv : validRange startIP endIP) by valid_by_eval.
  split; [exact Hv | exact (redecompose_block startIP endIP Hv)].
Defined.

(** C9 as stated fails: [::] through [::1:0:0:0] is a valid IPv6 range, the
    call returns the blocks [::/80] and [::1:0:0:0/128], and the call on the
    first block's network address [::] and last address
    [::ffff:255.255.255.255] returns the FamilyMismatch error, because the
    last address is IPv4-mapped and is normalised to 4 bytes. *)
Lemma redecompose_fails_on_mapped :
  let startIP := ofAddr 16 0 in
  let endIP := ofAddr 16 (2 ^ 48) in
  let B := {| IP_ := ofAddr 16 0; Mask := CIDRMask 80 128 |} in
  let B' := {| IP_ := ofAddr 16 (2 ^ 48); Mask := CIDRMask 128 128 |} in
  validRange startIP endIP /\
  Range2CIDRs 2 startIP endIP = Some ([B; B'], None) /\
  lastAddress B = 2 ^ 48 - 1 /\
  (forall fuel,
     Range2CIDRs fuel (IP_ B) (ofAddr (len (IP_ B)) (lastAddress B))
     = Some ([], Some FamilyMismatch)) /\
  ~ Returns (IP_ B) (ofAddr (len (IP_ B)) (lastAddress B)) ([B], None).
Proof.
  intros startIP endIP B B'. split; [valid_by_eval|].
  split; [vm_compute; reflexivity|]. split; [vm_compute; reflexivity|].
  assert (Herr : forall fuel,
            Range2CIDRs fuel (IP_ B) (ofAddr (len (IP_ B)) (lastAddress B))
            = Some ([], Some FamilyMismatch)).
  2: { split; [exact Herr|]. intros [fuel Hr]. rewrite Herr in Hr.
       discriminate. }
  intros fuel. unfold Range2CIDRs.
  replace (lastAddress B) with (2 ^ 48 - 1) by (vm_compute; reflexivity).
  cbn [B IP_ ofAddr len].
  replace (len (standardizeIP (Some (toBytes 16 0)))) with 16%nat
    by (vm_compute; reflexivity).
  rewrite length_toBytes.
  replace (len (standardizeIP (Some (toBytes 16 (2 ^ 48 - 1))))) with 4%nat
    by (vm_compute; reflexivity).
  reflexivity.
Qed.

(** C6 (inverted range).  For two present addresses that are normalised to
    the same width, the call returns, and it fails with InvertedRange
    exactly when start is greater than end as unsigned integers; in that
    case the list of blocks it returns is the nil slice. *)
Theorem inverted_range_iff a b :
  len (standardizeIP (Some a)) = len (standardizeIP (Some b)) ->
  exists r,
    Returns (Some a) (Some b) r /\
    (snd r = Some InvertedRange
     <-> addr (standardizeIP (Some a)) > addr (standardizeIP (Some b))) /\
    (snd r = Some InvertedRange -> fst r = []).
Proof.
  intros Hlen.
  destruct (Z.le_gt_cases (addr (standardizeIP (Some a)))
              (addr (standardizeIP (Some b)))) as [Hle|Hgt].
  - destruct (Range2CIDRs_run a b Hlen Hle) as (tr & _ & Hrun).
    exists (map (mkBlock (len (standardizeIP (Some a)))) tr, None).
    split; [exists (length tr); apply Hrun; lia|].
    cbn [fst snd]. split; [split; [discriminate | lia] | discriminate].
  - exists ([], Some InvertedRange). split.
    + exists 0%nat. unfold Range2CIDRs. rewrite Hlen, Nat.eqb_refl. cbn [negb].
      fold (addr (standardizeIP (Some a))).
      fold (addr (standardizeIP (Some b))).
      destruct (Z.gtb_spec (addr (standardizeIP (Some a)))
                  (addr (standardizeIP (Some b)))); [reflexivity | lia].
    + cbn [fst snd]. split; [split; [lia | reflexivity] | reflexivity].
Qed.

Lemma inverted_range_iff_witness :
  let a := [xc0; xa8; x02; x00] in
  let b := [xc0; xa8; x01; x00] in
  len (standardizeIP (Some a)) = len (standardizeIP (Some b)) /\
  exists r,
    Returns (Some a) (Some b) r /\
    (snd r = Some InvertedRange
     <-> addr (standardizeIP (Some a)) > addr (standardizeIP (Some b))) /\
    (snd r = Some InvertedRange -> fst r = []).
Proof.
  intros a b.
  split; [reflexivity | exact (inverted_range_iff a b eq_refl)].
Defined.

(** C7 (family mismatch).  For two present addresses that are normalised to
    different widths, the call fails with FamilyMismatch and returns the nil
    slice; the loop is not entered, so this holds with any fuel. *)
Theorem family_mismatch a b :
  len (standardizeIP (Some a)) <> len (standardizeIP (Some b)) ->
  forall fuel, Range2CIDRs fuel (Some a) (Some b) = Some ([], Some FamilyMismatch).
Proof.
  intros Hlen fuel. unfold Range2CIDRs.
  apply Nat.eqb_neq in Hlen. rewrite Hlen. reflexivity.
Qed.

(** An IPv4 start with an IPv6 end: 192.168.1.0 and 2400:ee00::1. *)
Lemma family_mismatch_witness :
  let a := [xc0; xa8; x01; x00] in
  let b := [x24; x00; xee; x00; x00; x00; x00; x00;
            x00; x00; x00; x00; x00; x00; x00; x01] in
  len (standardizeIP (Some a)) <> len (standardizeIP (Some b)) /\
  forall fuel, Range2CIDRs fuel (Some a) (Some b) = Some ([], Some FamilyMismatch).
Proof.
  intros a b.
  assert (H : len (standardizeIP (Some a)) <> len (standardizeIP (Some b)))
    by (vm_compute; discriminate).
  split; [exact H | exact (family_mismatch a b H)].
Defined.

(** C1 (whole address space): what the code does.  For 0.0.0.0 through
    255.255.255.255 the call returns two blocks, 0.0.0.0/1 and 128.0.0.0/1,
    not the single block 0.0.0.0/0; likewise for the whole IPv6 space.  The
    first inner loop stops at [i = maxLen - 1], so no round takes a block of
    [2^maxLen] addresses. *)
Theorem whole_space_two_halves :
  let half4 := {| IP_ := ip4 x00 x00 x00 x00;
                  Mask := Some [x80; x00; x00; x00] |} in
  let half4' := {| IP_ := ip4 x80 x00 x00 x00;
                   Mask := Some [x80; x00; x00; x00] |} in
  Range2CIDRs 2 (ip4 x00 x00 x00 x00) (ip4 xff xff xff xff)
  = Some ([half4; half4'], None) /\
  prefixLength half4 = 1 /\ prefixLength half4' = 1 /\
  option_map (fun r => (map networkAddress (fst r), map prefixLength (fst r), snd r))
    (Range2CIDRs 2 (ofAddr 16 0) (ofAddr 16 (2 ^ 128 - 1)))
  = Some ([0; 2 ^ 127], [1; 1], None).
Proof. vm_compute. repeat split; reflexivity. Qed.

(** C3 (minimality): what the code does.  0.0.0.0 through 255.255.255.255
    is a valid range; the call returns two blocks; the single block
    0.0.0.0/0 is a valid CIDR block whose address set is the union of the
    two, so the two returned blocks can be merged and the minimum is one
    block. *)
Theorem whole_space_not_minimal :
  let startIP := ip4 x00 x00 x00 x00 in
  let endIP := ip4 xff xff xff xff in
  let whole := {| IP_ := ip4 x00 x00 x00 x00; Mask := CIDRMask 0 32 |} in
  validRange startIP endIP /\
  exists b1 b2,
    Range2CIDRs 2 startIP endIP = Some ([b1; b2], None) /\
    validCIDR whole /\ prefixLength whole = 0 /\
    (forall x, inBlock whole x <-> addr startIP <= x <= addr endIP) /\
    (forall x, inBlock whole x <-> inBlock b1 x \/ inBlock b2 x).
Proof.
  intros startIP endIP whole. split; [valid_by_eval|].
  eexists _, _. split; [vm_compute; reflexivity|].
  split; [split; vm_compute; [split; discriminate | reflexivity]|].
  split; [reflexivity|].
  unfold inBlock.
  replace (networkAddress whole) with 0 by (vm_compute; reflexivity).
  replace (lastAddress whole) with (2 ^ 32 - 1) by (vm_compute; reflexivity).
  replace (addr startIP) with 0 by (vm_compute; reflexivity).
  replace (addr endIP) with (2 ^ 32 - 1) by (vm_compute; reflexivity).
  split; [reflexivity|].
  intros x.
  match goal with |- _ <-> (networkAddress ?b1 <= _ <= _) \/ (networkAddress ?b2 <= _ <= _) =>
    replace (networkAddress b1) with 0 by (vm_compute; reflexivity);
    replace (lastAddress b1) with (2 ^ 31 - 1) by (vm_compute; reflexivity);
    replace (networkAddress b2) with (2 ^ 31) by (vm_compute; reflexivity);
    replace (lastAddress b2) with (2 ^ 32 - 1) by (vm_compute; reflexivity)
  end.
  lia.
Qed.

(** C8 (invalid input): what the code does.  A 5-byte slice cannot be
    normalised ([standardizeIP] gives the nil slice), yet with such a slice
    as start and as end the call returns no error and a list of one block
    with an empty address and a nil mask; with a 4-byte end the error is
    FamilyMismatch.  Only a nil argument gives InvalidInput. *)
Theorem unnormalizable_not_rejected :
  let bad := Some [x01; x02; x03; x04; x05] in
  standardizeIP bad = None /\
  Range2CIDRs 1 bad bad = Some ([{| IP_ := Some []; Mask := None |}], None) /\
  (forall fuel, Range2CIDRs fuel bad (ip4 x01 x02 x03 x04)
                = Some ([], Some FamilyMismatch)) /\
  (forall fuel endIP, Range2CIDRs fuel None endIP = Some ([], Some InvalidInput)) /\
  (forall fuel startIP, Range2CIDRs fuel startIP None = Some ([], Some InvalidInput)).
Proof.
  intros bad. repeat split; try reflexivity.
  intros fuel startIP. destruct startIP; reflexivity.
Qed.


(** * Further properties of the code *)

(** ** [standardizeIP] *)

Lemma standardizeIP_IPv4 a b c d : standardizeIP (IPv4 a b c d) = ip4 a b c d.
Proof. reflexivity. Qed.

Lemma standardizeIP_mapped l :
  isV4Mapped l = true ->
  standardizeIP (Some l) = Some (firstn 4 (skipn 12 l)).
Proof.
  intros Hm. pose proof (isV4Mapped_length l Hm) as Hl.
  unfold standardizeIP, To4. cbn [len bytes]. rewrite Hl, Hm. reflexivity.
Qed.

Lemma standardizeIP_other l :
  length l <> 4%nat -> length l <> 16%nat -> standardizeIP (Some l) = None.
Proof.
  intros H4 H16. unfold standardizeIP, To4, To16. cbn [len bytes].
  apply Nat.eqb_neq in H4 as E4. apply Nat.eqb_neq in H16 as E16.
  unfold IPv4len, IPv6len. rewrite E4, E16.
  destruct (isV4Mapped l) eqn:Hm; [|reflexivity].
  apply isV4Mapped_length in Hm. contradiction.
Qed.

(** The four cases of [standardizeIP] on a present slice. *)
Lemma standardizeIP_cases l :
  (length l = 4%nat /\ standardizeIP (Some l) = Some l)
  \/ (isV4Mapped l = true /\ standardizeIP (Some l) = Some (firstn 4 (skipn 12 l)))
  \/ (length l = 16%nat /\ isV4Mapped l = false /\ standardizeIP (Some l) = Some l)
  \/ (length l <> 4%nat /\ length l <> 16%nat /\ standardizeIP (Some l) = None).
Proof.
  destruct (Nat.eq_dec (length l) 4) as [H4|H4];
    [left; split; [assumption | now apply standardizeIP_4]|].
  destruct (isV4Mapped l) eqn:Hm;
    [right; left; split; [reflexivity | now apply standardizeIP_mapped]|].
  destruct (Nat.eq_dec (length l) 16) as [H16|H16].
  - right; right; left. repeat split; trivial. now apply standardizeIP_16.
  - right; right; right. repeat split; trivial. now apply standardizeIP_other.
Qed.

(** What [standardizeIP] returns it returns again. *)
Lemma standardizeIP_stable ip l :
  standardizeIP ip = Some l -> standardizeIP (Some l) = Some l.
Proof.
  destruct ip as [l0|]; [|discriminate].
  destruct (standardizeIP_cases l0)
    as [[H4 ->] | [[Hm ->] | [(H16 & Hm & ->) | (_ & _ & ->)]]];
    intros E; try discriminate;
    apply (f_equal bytes) in E; cbn [bytes] in E; subst l.
  - now apply standardizeIP_4.
  - apply standardizeIP_4. apply isV4Mapped_length in Hm.
    rewrite length_firstn, length_skipn, Hm. reflexivity.
  - now apply standardizeIP_16.
Qed.

(** X1.  [standardizeIP] is idempotent: normalising an address that is
    already normalised changes nothing. *)
Theorem standardizeIP_idempotent ip :
  standardizeIP (standardizeIP ip) = standardizeIP ip.
Proof.
  destruct ip as [l|]; [|reflexivity].
  destruct (standardizeIP_cases l)
    as [[H4 ->] | [[Hm ->] | [(H16 & Hm & ->) | (_ & _ & ->)]]].
  - now apply standardizeIP_4.
  - apply standardizeIP_4. apply isV4Mapped_length in Hm.
    rewrite length_firstn, length_skipn, Hm. reflexivity.
  - now apply standardizeIP_16.
  - reflexivity.
Qed.

(** X2.  [standardizeIP] returns the nil slice exactly for the slices whose
    length is neither 4 nor 16 (the nil slice among them); otherwise its
    result is 4 bytes long for a 4-byte or IPv4-mapped argument and 16 bytes
    long for any other 16-byte argument. *)
Theorem standardizeIP_nil_iff ip :
  (standardizeIP ip = None <-> len ip <> 4%nat /\ len ip <> 16%nat) /\
  (len (standardizeIP ip) = 4%nat
   <-> len ip = 4%nat \/ isV4Mapped (bytes ip) = true) /\
  (len (standardizeIP ip) = 16%nat
   <-> len ip = 16%nat /\ isV4Mapped (bytes ip) = false).
Proof.
  destruct ip as [l|]; [|cbn; intuition (discriminate || lia)].
  cbn [len bytes].
  assert (Hm16 : isV4Mapped l = true -> length l = 16%nat)
    by apply isV4Mapped_length.
  destruct (standardizeIP_cases l)
    as [[H4 ->] | [[Hm ->] | [(H16 & Hm & ->) | (H4 & H16 & ->)]]];
    cbn [len].
  - destruct (isV4Mapped l); intuition (discriminate || lia).
  - rewrite length_firstn, length_skipn, (Hm16 Hm), Hm. cbn.
    intuition (discriminate || lia).
  - rewrite Hm. intuition (discriminate || lia).
  - destruct (isV4Mapped l); intuition (discriminate || lia).
Qed.

(** ** [Range2CIDRs]: normalisation of the arguments *)

(** X3.  The call depends on its arguments only through their normalised
    forms: when both arguments can be normalised, calling with the
    normalised slices gives the same result, fuel for fuel. *)
Theorem Range2CIDRs_normalised fuel a b :
  standardizeIP (Some a) <> None -> standardizeIP (Some b) <> None ->
  Range2CIDRs fuel (standardizeIP (Some a)) (standardizeIP (Some b))
  = Range2CIDRs fuel (Some a) (Some b).
Proof.
  intros Ha Hb.
  destruct (standardizeIP (Some a)) as [a'|] eqn:Ea; [|congruence].
  destruct (standardizeIP (Some b)) as [b'|] eqn:Eb; [|congruence].
  unfold Range2CIDRs.
  rewrite (standardizeIP_stable _ _ Ea), (standardizeIP_stable _ _ Eb), Ea, Eb.
  reflexivity.
Qed.

Lemma Range2CIDRs_normalised_witness :
  let a := bytes (IPv4 xc0 xa8 x01 x00) in
  let b := [xc0; xa8; x02; xff] in
  (standardizeIP (Some a) <> None /\ standardizeIP (Some b) <> None) /\
  Range2CIDRs 2 (standardizeIP (Some a)) (standardizeIP (Some b))
  = Range2CIDRs 2 (Some a) (Some b).
Proof.
  intros a b.
  assert (Ha : standardizeIP (Some a) <> None) by (vm_compute; discriminate).
  assert (Hb : standardizeIP (Some b) <> None) by (vm_compute; discriminate).
  split; [split; assumption | exact (Range2CIDRs_normalised 2 a b Ha Hb)].
Defined.

(** X4.  IPv4 addresses given in the 16-byte IPv4-mapped form
    [::ffff:a.b.c.d], as [net.ParseIP] and [net.IPv4] produce them, are
    handled exactly as the 4-byte addresses [a.b.c.d]: the result is the
    same, with 4-byte blocks. *)
Theorem Range2CIDRs_mapped_form fuel a b c d a' b' c' d' :
  Range2CIDRs fuel (IPv4 a b c d) (IPv4 a' b' c' d')
  = Range2CIDRs fuel (ip4 a b c d) (ip4 a' b' c' d').
Proof.
  assert (E : forall x y z t, standardizeIP (IPv4 x y z t) = standardizeIP (ip4 x y z t))
    by (intros; rewrite standardizeIP_IPv4; symmetry; now apply standardizeIP_4).
  unfold Range2CIDRs. rewrite !E. reflexivity.
Qed.

(** X5.  A 16-byte IPv4-mapped address and a 16-byte address that is not
    IPv4-mapped are of different families for the call although both
    slices are 16 bytes long: in either order the result is FamilyMismatch. *)
Theorem mapped_with_ipv6_mismatch a b :
  isV4Mapped a = true -> length b = 16%nat -> isV4Mapped b = false ->
  forall fuel,
    Range2CIDRs fuel (Some a) (Some b) = Some ([], Some FamilyMismatch) /\
    Range2CIDRs fuel (Some b) (Some a) = Some ([], Some FamilyMismatch).
Proof.
  intros Ha Hlb Hb fuel. unfold Range2CIDRs.
  rewrite (standardizeIP_mapped a Ha), (standardizeIP_16 b Hlb Hb).
  apply isV4Mapped_length in Ha. cbn [len].
  rewrite length_firstn, length_skipn, Ha, Hlb. split; reflexivity.
Qed.

Lemma mapped_with_ipv6_mismatch_witness :
  let a := bytes (IPv4 xc0 xa8 x01 x00) in
  let b := bytes (ofAddr 16 (2 ^ 48)) in
  (isV4Mapped a = true /\ length b = 16%nat /\ isV4Mapped b = false) /\
  forall fuel,
    Range2CIDRs fuel (Some a) (Some b) = Some ([], Some FamilyMismatch) /\
    Range2CIDRs fuel (Some b) (Some a) = Some ([], Some FamilyMismatch).
Proof.
  intros a b.
  split; [repeat split; vm_compute; reflexivity|].
  apply (mapped_with_ipv6_mismatch a b); vm_compute; reflexivity.
Defined.

(** ** [Range2CIDRs]: the checks before the loop *)

(** The four ways out of [Range2CIDRs], in the order of the code. *)
Lemma Range2CIDRs_outcome startIP endIP :
  exists r, Returns startIP endIP r /\
    (((startIP = None \/ endIP = None) /\ r = ([], Some InvalidInput))
     \/ (startIP <> None /\ endIP <> None /\
         len (standardizeIP startIP) <> len (standardizeIP endIP) /\
         r = ([], Some FamilyMismatch))
     \/ (startIP <> None /\ endIP <> None /\
         len (standardizeIP startIP) = len (standardizeIP endIP) /\
         addr (standardizeIP startIP) > addr (standardizeIP endIP) /\
         r = ([], Some InvertedRange))
     \/ (startIP <> None /\ endIP <> None /\
         len (standardizeIP startIP) = len (standardizeIP endIP) /\
         addr (standardizeIP startIP) <= addr (standardizeIP endIP) /\
         exists p tr, r = (map (mkBlock (len (standardizeIP startIP))) (p :: tr),
                           None))).
Proof.
  destruct startIP as [a|];
    [|exists ([], Some InvalidInput); split;
      [exists 0%nat; reflexivity | left; auto]].
  destruct endIP as [b|];
    [|exists ([], Some InvalidInput); split;
      [exists 0%nat; reflexivity | left; auto]].
  destruct (Nat.eq_dec (len (standardizeIP (Some a)))
              (len (standardizeIP (Some b)))) as [Hlen|Hlen].
  - destruct (Z.le_gt_cases (addr (standardizeIP (Some a)))
                (addr (standardizeIP (Some b)))) as [Hle|Hgt].
    + destruct (Range2CIDRs_run a b Hlen Hle) as (tr & Hst & Hrun).
      eexists. split; [exists (length tr); apply Hrun; lia|].
      right; right; right. repeat split; try discriminate; trivial.
      inversion Hst; subst; [lia | eauto].
    + exists ([], Some InvertedRange). split.
      * exists 0%nat. unfold Range2CIDRs. rewrite Hlen, Nat.eqb_refl. cbn [negb].
        fold (addr (standardizeIP (Some a))).
        fold (addr (standardizeIP (Some b))).
        destruct (Z.gtb_spec (addr (standardizeIP (Some a)))
                    (addr (standardizeIP (Some b)))); [reflexivity | lia].
      * right; right; left. repeat split; try discriminate; trivial; lia.
  - exists ([], Some FamilyMismatch). split.
    + exists 0%nat. unfold Range2CIDRs.
      apply Nat.eqb_neq in Hlen. rewrite Hlen. reflexivity.
    + right; left. repeat split; try discriminate; trivial.
Qed.

(** X6.  The call fails with InvalidInput exactly when one of the two
    arguments is the nil slice. *)
Theorem invalid_input_iff_nil startIP endIP :
  exists r, Returns startIP endIP r /\
    (snd r = Some InvalidInput <-> startIP = None \/ endIP = None).
Proof.
  destruct (Range2CIDRs_outcome startIP endIP)
    as (r & Hr & [(H & Er) | [(Ha & Hb & _ & Er) | [(Ha & Hb & _ & _ & Er)
                 | (Ha & Hb & _ & _ & p & tr & Er)]]]);
    exists r; (split; [exact Hr|]); subst r; cbn [snd];
    (split; [try discriminate; auto | intros [?|?]; congruence || reflexivity]).
Qed.

(** X7.  The call fails with FamilyMismatch exactly when both arguments are
    present and their normalised forms have different lengths; this
    includes a present argument that cannot be normalised (length 0) paired
    with one that can. *)
Theorem family_mismatch_iff startIP endIP :
  exists r, Returns startIP endIP r /\
    (snd r = Some FamilyMismatch
     <-> startIP <> None /\ endIP <> None /\
         len (standardizeIP startIP) <> len (standardizeIP endIP)).
Proof.
  destruct (Range2CIDRs_outcome startIP endIP)
    as (r & Hr & [(H & Er) | [(Ha & Hb & Hl & Er) | [(Ha & Hb & Hl & _ & Er)
                 | (Ha & Hb & Hl & _ & p & tr & Er)]]]);
    exists r; (split; [exact Hr|]); subst r; cbn [snd];
    (split; [try discriminate; auto | intros (? & ? & ?)]);
    try reflexivity; try congruence.
  destruct H; congruence.
Qed.

(** X8.  An error never comes with blocks and a success never comes
    without: when the call returns an error the slice of blocks is nil, and
    when it returns no error the slice holds at least one block. *)
Theorem error_xor_blocks startIP endIP :
  exists r, Returns startIP endIP r /\
    (snd r <> None -> fst r = []) /\
    (snd r = None -> fst r <> []).
Proof.
  destruct (Range2CIDRs_outcome startIP endIP)
    as (r & Hr & [(H & Er) | [(Ha & Hb & Hl & Er) | [(Ha & Hb & Hl & _ & Er)
                 | (Ha & Hb & Hl & _ & p & tr & Er)]]]);
    exists r; (split; [exact Hr|]); subst r; cbn [fst snd];
    split; try reflexivity; try discriminate; congruence.
Qed.

(** X9.  Two present slices that both cannot be normalised (neither 4 nor
    16 bytes long) are not rejected: as soon as the loop may run one round
    the call returns no error and one block with an empty address and a nil
    mask. *)
Theorem unnormalizable_pair a b :
  length a <> 4%nat -> length a <> 16%nat ->
  length b <> 4%nat -> length b <> 16%nat ->
  forall fuel, (1 <= fuel)%nat ->
    Range2CIDRs fuel (Some a) (Some b) = Some ([emptyBlock], None).
Proof.
  intros Ha4 Ha16 Hb4 Hb16 fuel Hf. unfold Range2CIDRs.
  rewrite (standardizeIP_other a), (standardizeIP_other b) by assumption.
  cbn [len bytes Nat.eqb negb]. change (SetBytes []) with 0. cbn [Z.gtb Z.compare].
  destruct fuel as [|fuel]; [lia|].
  rewrite loop_eq. cbn [Z.leb Z.compare].
  rewrite blockExp_0 by lia. change (FillBytes 0 0) with (Some (@nil byte)).
  cbv iota. rewrite loop_eq. reflexivity.
Qed.

Lemma unnormalizable_pair_witness :
  let a := @nil byte in
  let b := [x0a; x00; x01] in
  (length a <> 4%nat /\ length a <> 16%nat /\
   length b <> 4%nat /\ length b <> 16%nat /\ (1 <= 3)%nat) /\
  Range2CIDRs 3 (Some a) (Some b) = Some ([emptyBlock], None).
Proof.
  intros a b.
  split; [cbn; repeat split; lia|].
  apply (unnormalizable_pair a b); cbn; lia.
Defined.

(** ** The two inner loops, each on its own *)

(** X10.  The first inner loop computes the binary logarithm of the number
    of addresses left, capped at [maxLen - 1]: for [maxLen > 0] and
    [diff >= 1] it leaves [maxSize = min (maxLen - 1) (floor (log2 diff))]. *)
Theorem maxSizeLoop_log2 maxLen diff :
  (0 < maxLen)%nat -> 1 <= diff ->
  Z.of_nat (maxSizeLoop maxLen 0 diff 0)
  = Z.min (Z.of_nat maxLen - 1) (Z.log2 diff).
Proof.
  intros Hw Hd.
  pose proof (maxSizeLoop_spec maxLen 0 diff 0) as H. cbv zeta in H.
  set (r := maxSizeLoop maxLen 0 diff 0) in *.
  destruct H as [[_ [H|H]] | (Hr & Hp & Hmax)];
    [lia | change (2 ^ Z.of_nat 0) with 1 in H; lia |].
  destruct (Z.lt_ge_cases diff (2 ^ Z.of_nat (S r))) as [Hlt|Hge].
  - rewrite (Z.log2_unique diff (Z.of_nat r)); [lia | lia |].
    rewrite Nat2Z.inj_succ in Hlt. lia.
  - destruct Hmax as [Hmax|Hmax]; [|lia].
    assert (Z.of_nat (S r) <= Z.log2 diff) by (apply Z.log2_le_pow2; lia).
    lia.
Qed.

Lemma maxSizeLoop_log2_witness :
  (0 < 32)%nat /\ 1 <= 512 /\
  Z.of_nat (maxSizeLoop 32 0 512 0) = Z.min (Z.of_nat 32 - 1) (Z.log2 512).
Proof.
  split; [lia|]. split; [lia|]. apply (maxSizeLoop_log2 32 512); lia.
Defined.

(** X11.  The second inner loop, started at [i] with [startInt <= endInt],
    always breaks: it returns the largest exponent [r <= i] such that
    [startInt] is a multiple of [2^r] and [startInt + 2^r - 1 <= endInt],
    whatever value [maxSize] had. *)
Theorem alignLoop_largest i s e d :
  s <= e ->
  let r := alignLoop i s e d in
  (r <= i)%nat /\ s mod 2 ^ Z.of_nat r = 0 /\ s + 2 ^ Z.of_nat r - 1 <= e /\
  (forall j, (j <= i)%nat -> s mod 2 ^ Z.of_nat j = 0 ->
             s + 2 ^ Z.of_nat j - 1 <= e -> (j <= r)%nat) /\
  forall d', alignLoop i s e d' = r.
Proof.
  intros Hse r.
  destruct (alignLoop_spec i s e d Hse) as (Hr & Hal & Hfit & Hmax).
  fold r in Hr, Hal, Hfit, Hmax. repeat split; trivial.
  - intros j Hj Haj Hfj.
    destruct (Nat.le_gt_cases j r) as [|Hgt]; [assumption | exfalso].
    apply (Hmax j); [lia | split; assumption].
  - intros d'.
    destruct (alignLoop_spec i s e d' Hse) as (Hr' & Hal' & Hfit' & Hmax').
    set (r' := alignLoop i s e d') in *.
    destruct (Nat.lt_trichotomy r' r) as [Hlt|[Heq|Hlt]]; [exfalso | exact Heq | exfalso].
    + apply (Hmax' r); [lia | split; assumption].
    + apply (Hmax r'); [lia | split; assumption].
Qed.

Lemma alignLoop_largest_witness :
  192 <= 767 /\
  let r := alignLoop 9 192 767 9 in
  (r <= 9)%nat /\ 192 mod 2 ^ Z.of_nat r = 0 /\ 192 + 2 ^ Z.of_nat r - 1 <= 767 /\
  (forall j, (j <= 9)%nat -> 192 mod 2 ^ Z.of_nat j = 0 ->
             192 + 2 ^ Z.of_nat j - 1 <= 767 -> (j <= r)%nat) /\
  forall d', alignLoop 9 192 767 d' = r.
Proof.
  split; [lia|]. apply (alignLoop_largest 9 192 767 9). lia.
Defined.

(** ** More on the trace of the main loop *)

Lemma steps_nth n e s tr :
  steps n e s tr ->
  forall i p, nth_error tr i = Some p ->
    s <= fst p <= e /\ snd p = blockExp (n * 8) (fst p) e.
Proof.
  induction 1 as [s Hs | s tr Hs Hst IH]; intros i p Hi.
  - destruct i; discriminate.
  - destruct i as [|i]; cbn in Hi.
    + injection Hi as <-. cbn [fst snd]. repeat split; lia.
    + pose proof (pow2_pos (blockExp (n * 8) s e)).
      destruct (IH i p Hi) as [? ?]. repeat split; trivial; lia.
Qed.

(** Each round starts where the round before stopped. *)
Lemma steps_chain n e s tr :
  steps n e s tr ->
  forall i p q, nth_error tr i = Some p -> nth_error tr (S i) = Some q ->
    fst q = fst p + 2 ^ Z.of_nat (snd p).
Proof.
  induction 1 as [s Hs | s tr Hs Hst IH]; intros i p q Hi Hj.
  - destruct i; discriminate.
  - destruct i as [|i]; cbn in Hi, Hj.
    + injection Hi as <-. cbn [fst snd].
      inversion Hst; subst; [discriminate|]. cbn in Hj. now injection Hj as <-.
    + exact (IH i p q Hi Hj).
Qed.

Lemma steps_head n e s p tr : steps n e s (p :: tr) -> fst p = s.
Proof. inversion 1; reflexivity. Qed.

(** The last round stops exactly after [e]. *)
Lemma steps_last n e s tr :
  (0 < n)%nat -> steps n e s tr ->
  forall p, nth_error tr (length tr - 1) = Some p ->
    fst p + 2 ^ Z.of_nat (snd p) = e + 1.
Proof.
  intros Hn. induction 1 as [s Hs | s tr Hs Hst IH]; intros p Hp.
  - discriminate.
  - destruct tr as [|q tr].
    + cbn in Hp. injection Hp as <-. cbn [fst snd].
      round n s e Hs k Hmax. inversion Hst; subst; lia.
    + apply IH. cbn [length] in Hp |- *.
      replace (S (S (length tr)) - 1)%nat with (S (length tr)) in Hp by lia.
      replace (S (length tr) - 1)%nat with (length tr) by lia.
      exact Hp.
Qed.

(** The sizes taken by the rounds add up to the length of the range. *)
Lemma steps_sum n e s tr :
  (0 < n)%nat -> steps n e s tr -> s <= e + 1 ->
  total (map (fun p => 2 ^ Z.of_nat (snd p)) tr) = e + 1 - s.
Proof.
  intros Hn. induction 1 as [s Hs | s tr Hs Hst IH]; intros Hse.
  - cbn. lia.
  - cbn [map total fold_right snd]. fold (total (map (fun p => 2 ^ Z.of_nat (snd p)) tr)).
    round n s e Hs k Hmax. rewrite IH by lia. lia.
Qed.

Lemma length_maskBytes l : forall m, length (maskBytes l m) = l.
Proof.
  induction l as [|l IH]; intros m; cbn [maskBytes]; [reflexivity|].
  destruct (8 <=? m); cbn [length]; now rewrite IH.
Qed.

Lemma CIDRMask_some n ones :
  n = 4%nat \/ n = 16%nat -> 0 <= ones <= Z.of_nat (n * 8) ->
  CIDRMask ones (Z.of_nat (n * 8)) = Some (maskBytes n ones).
Proof.
  intros Hn Ho. unfold CIDRMask.
  destruct (Z.ltb_spec ones 0); [lia|].
  destruct (Z.gtb_spec ones (Z.of_nat (n * 8))); [lia|].
  destruct Hn; subst n; reflexivity.
Qed.

(** ** [Range2CIDRs]: the list of blocks on a valid range *)

(** X12.  Every returned block is the largest one possible at its place:
    no exponent [k] below the width gives a block of [2^k] addresses that
    starts at the block's network address, is aligned, ends at or before
    the end of the range, and is larger than the returned block. *)
Theorem blocks_greedy startIP endIP :
  validRange startIP endIP ->
  exists cidrs,
    Returns startIP endIP (cidrs, None) /\
    forall B (k : nat), In B cidrs ->
      Z.of_nat k < width B ->
      networkAddress B mod 2 ^ Z.of_nat k = 0 ->
      networkAddress B + 2 ^ Z.of_nat k - 1 <= addr (standardizeIP endIP) ->
      Z.of_nat k <= hostBits B.
Proof.
  intros Hv. destruct (valid_run _ _ Hv) as (Hn & Hse & He & tr & Hst & Hgood & Hrun).
  set (n := len (standardizeIP startIP)) in *.
  set (e := addr (standardizeIP endIP)) in *.
  exists (map (mkBlock n) tr). split; [exists (length tr); apply Hrun; lia|].
  intros B k HB. apply in_map_iff in HB. destruct HB as (p & <- & Hin).
  rewrite Forall_forall in Hgood. pose proof (Hgood p Hin) as Hp.
  rewrite (mkBlock_width n e p Hn He Hp), (mkBlock_networkAddress n e p Hn He Hp),
    (mkBlock_hostBits n e p Hn He Hp).
  intros Hk Hal Hfit.
  destruct (In_nth_error _ _ Hin) as [i Hi].
  destruct (steps_nth n e _ tr Hst i p Hi) as [Hpe ->].
  destruct (blockExp_spec (n * 8) (fst p) e ltac:(lia) ltac:(lia))
    as (_ & _ & _ & Hmax).
  apply inj_le. apply Hmax; trivial. lia.
Qed.

Lemma blocks_greedy_witness :
  let startIP := ip4 xc0 xa8 x01 x00 in
  let endIP := ip4 xc0 xa8 x02 xff in
  validRange startIP endIP /\
  exists cidrs,
    Returns startIP endIP (cidrs, None) /\
    forall B (k : nat), In B cidrs ->
      Z.of_nat k < width B ->
      networkAddress B mod 2 ^ Z.of_nat k = 0 ->
      networkAddress B + 2 ^ Z.of_nat k - 1 <= addr (standardizeIP endIP) ->
      Z.of_nat k <= hostBits B.
Proof.
  intros startIP endIP.
  assert (Hv : validRange startIP endIP) by valid_by_eval.
  split; [exact Hv | exact (blocks_greedy startIP endIP Hv)].
Defined.

(** X13.  A range of one address (start equal to end) gives one block: the
    normalised start address with a prefix length equal to the width, /32
    or /128; one round of the loop is enough. *)
Theorem single_address startIP endIP :
  validRange startIP endIP ->
  addr (standardizeIP startIP) = addr (standardizeIP endIP) ->
  let w := Z.of_nat (len (standardizeIP startIP) * 8) in
  let B := {| IP_ := standardizeIP startIP; Mask := CIDRMask w w |} in
  (forall fuel, (1 <= fuel)%nat ->
     Range2CIDRs fuel startIP endIP = Some ([B], None)) /\
  prefixLength B = width B /\ networkAddress B = addr (standardizeIP startIP).
Proof.
  intros Hv Heq w B.
  destruct (valid_run _ _ Hv) as (Hn & Hse & He & tr & Hst & Hgood & Hrun).
  set (n := len (standardizeIP startIP)) in *.
  set (s := addr (standardizeIP startIP)) in *.
  assert (Hsl : standardizeIP startIP = Some (toBytes n s)).
  { unfold s, addr, n. destruct (standardizeIP startIP) as [l|] eqn:E.
    - cbn [bytes len]. now rewrite toBytes_SetBytes.
    - cbn in Hn. lia. }
  assert (Hk : blockExp (n * 8) s s = 0%nat).
  { pose proof (blockExp_block (n * 8) s 0 ltac:(lia)) as H.
    change (2 ^ Z.of_nat 0) with 1 in H.
    replace (s + 1 - 1) with s in H by lia. apply H.
    unfold aligned. apply Z.mod_1_r. }
  rewrite <- Heq in Hst.
  assert (Htr : tr = [(s, 0%nat)]).
  { inversion Hst as [|s0 tr0 Hs0 Hst0]; subst; [lia|].
    rewrite Hk in *. change (2 ^ Z.of_nat 0) with 1 in Hst0.
    inversion Hst0; subst; [reflexivity | lia]. }
  subst tr.
  assert (HB : mkBlock n (s, 0%nat) = B).
  { unfold mkBlock, B. cbn [fst snd]. rewrite Hsl. unfold w. f_equal. f_equal. lia. }
  rewrite <- HB. rewrite Forall_forall in Hgood.
  pose proof (Hgood _ (or_introl eq_refl)) as Hp. rewrite <- Heq in He, Hp.
  repeat split.
  - intros fuel Hf. apply Hrun. cbn. lia.
  - rewrite (mkBlock_prefixLength n s _ Hn He Hp), (mkBlock_width n s _ Hn He Hp).
    cbn [snd]. lia.
  - apply (mkBlock_networkAddress n s _ Hn He Hp).
Qed.

Lemma single_address_witness :
  let startIP := ip4 xc0 xa8 x01 x05 in
  let endIP := ip4 xc0 xa8 x01 x05 in
  (validRange startIP endIP /\
   addr (standardizeIP startIP) = addr (standardizeIP endIP)) /\
  let w := Z.of_nat (len (standardizeIP startIP) * 8) in
  let B := {| IP_ := standardizeIP startIP; Mask := CIDRMask w w |} in
  (forall fuel, (1 <= fuel)%nat ->
     Range2CIDRs fuel startIP endIP = Some ([B], None)) /\
  prefixLength B = width B /\ networkAddress B = addr (standardizeIP startIP).
Proof.
  intros startIP endIP.
  assert (Hv : validRange startIP endIP) by valid_by_eval.
  split; [split; [exact Hv | reflexivity]|].
  exact (single_address startIP endIP Hv eq_refl).
Defined.

(** X14.  On a valid range the call returns exactly one block if and only
    if the range is itself an aligned block smaller than the whole address
    space: for some [k] below the width, start is a multiple of [2^k] and
    end is [start + 2^k - 1]. *)
Theorem single_block_iff startIP endIP :
  validRange startIP endIP ->
  let s := addr (standardizeIP startIP) in
  let e := addr (standardizeIP endIP) in
  exists cidrs,
    Returns startIP endIP (cidrs, None) /\
    (length cidrs = 1%nat
     <-> exists k : nat, (k < len (standardizeIP startIP) * 8)%nat /\
                         s mod 2 ^ Z.of_nat k = 0 /\ e = s + 2 ^ Z.of_nat k - 1).
Proof.
  intros Hv s e.
  destruct (valid_run _ _ Hv) as (Hn & Hse & He & tr & Hst & Hgood & Hrun).
  set (n := len (standardizeIP startIP)) in *. fold s e in Hse, He, Hst, Hgood.
  exists (map (mkBlock n) tr). split; [exists (length tr); apply Hrun; lia|].
  rewrite length_map. split.
  - intros Hlen. destruct tr as [|p [|q tr]]; try discriminate.
    inversion Hst as [|s0 tr0 Hs0 Hst0]; subst.
    round n s e Hs0 k Hmax. exists k. repeat split; trivial.
    inversion Hst0; subst; lia.
  - intros (k & Hk & Hal & Hek).
    inversion Hst as [|s0 tr0 Hs0 Hst0]; subst; [pose proof (pow2_pos k); lia|].
    rewrite Hek in Hst0. rewrite (blockExp_block (n * 8) s k Hk Hal) in Hst0.
    inversion Hst0; subst; [reflexivity | lia].
Qed.

Lemma single_block_iff_witness :
  let startIP := ip4 xc0 xa8 x01 x00 in
  let endIP := ip4 xc0 xa8 x01 xff in
  validRange startIP endIP /\
  let s := addr (standardizeIP startIP) in
  let e := addr (standardizeIP endIP) in
  exists cidrs,
    Returns startIP endIP (cidrs, None) /\
    (length cidrs = 1%nat
     <-> exists k : nat, (k < len (standardizeIP startIP) * 8)%nat /\
                         s mod 2 ^ Z.of_nat k = 0 /\ e = s + 2 ^ Z.of_nat k - 1).
Proof.
  intros startIP endIP.
  assert (Hv : validRange startIP endIP) by valid_by_eval.
  split; [exact Hv | exact (single_block_iff startIP endIP Hv)].
Defined.

(** X15.  On a valid range the returned blocks are contiguous: the first
    block starts at start, every further block starts at the address after
    the last address of the block before it, and the last block ends at
    end. *)
Theorem blocks_contiguous startIP endIP :
  validRange startIP endIP ->
  exists cidrs,
    Returns startIP endIP (cidrs, None) /\
    (exists b, nth_error cidrs 0 = Some b /\
               networkAddress b = addr (standardizeIP startIP)) /\
    (forall i b1 b2,
        nth_error cidrs i = Some b1 -> nth_error cidrs (S i) = Some b2 ->
        networkAddress b2 = lastAddress b1 + 1) /\
    (exists b, nth_error cidrs (length cidrs - 1) = Some b /\
               lastAddress b = addr (standardizeIP endIP)).
Proof.
  intros Hv. destruct (valid_run _ _ Hv) as (Hn & Hse & He & tr & Hst & Hgood & Hrun).
  set (n := len (standardizeIP startIP)) in *.
  set (s := addr (standardizeIP startIP)) in *.
  set (e := addr (standardizeIP endIP)) in *.
  rewrite Forall_forall in Hgood.
  assert (Hg : forall i p, nth_error tr i = Some p -> goodStep n e p)
    by (intros i p Hi; apply Hgood; eapply nth_error_In; eassumption).
  exists (map (mkBlock n) tr). split; [exists (length tr); apply Hrun; lia|].
  split; [|split].
  - destruct tr as [|p tr]; [inversion Hst; lia|].
    exists (mkBlock n p). split; [reflexivity|].
    rewrite (mkBlock_networkAddress n e p Hn He (Hg 0%nat p eq_refl)).
    exact (steps_head n e s p tr Hst).
  - intros i b1 b2 H1 H2. apply nth_error_map_inv in H1, H2.
    destruct H1 as (p & H1 & ->), H2 as (q & H2 & ->).
    rewrite (mkBlock_networkAddress n e q Hn He (Hg _ _ H2)),
      (mkBlock_lastAddress n e p Hn He (Hg _ _ H1)).
    rewrite (steps_chain n e s tr Hst i p q H1 H2). lia.
  - rewrite length_map.
    destruct (nth_error tr (length tr - 1)) as [p|] eqn:Hp.
    + exists (mkBlock n p). split; [rewrite nth_error_map, Hp; reflexivity|].
      rewrite (mkBlock_lastAddress n e p Hn He (Hg _ _ Hp)).
      pose proof (steps_last n e s tr ltac:(lia) Hst p Hp). lia.
    + apply nth_error_None in Hp.
      destruct tr; [inversion Hst; lia | cbn [length] in Hp; lia].
Qed.

Lemma blocks_contiguous_witness :
  let startIP := ip4 xc0 xa8 x01 x00 in
  let endIP := ip4 xc0 xa8 x02 xff in
  validRange startIP endIP /\
  exists cidrs,
    Returns startIP endIP (cidrs, None) /\
    (exists b, nth_error cidrs 0 = Some b /\
               networkAddress b = addr (standardizeIP startIP)) /\
    (forall i b1 b2,
        nth_error cidrs i = Some b1 -> nth_error cidrs (S i) = Some b2 ->
        networkAddress b2 = lastAddress b1 + 1) /\
    (exists b, nth_error cidrs (length cidrs - 1) = Some b /\
               lastAddress b = addr (standardizeIP endIP)).
Proof.
  intros startIP endIP.
  assert (Hv : validRange startIP endIP) by valid_by_eval.
  split; [exact Hv | exact (blocks_contiguous startIP endIP Hv)].
Defined.

(** X16.  On a valid range the sizes [2^(width - prefixLength)] of the
    returned blocks add up to the number of addresses of the range,
    [end - start + 1]. *)
Theorem block_sizes_sum startIP endIP :
  validRange startIP endIP ->
  exists cidrs,
    Returns startIP endIP (cidrs, None) /\
    total (map blockSize cidrs)
    = addr (standardizeIP endIP) - addr (standardizeIP startIP) + 1.
Proof.
  intros Hv. destruct (valid_run _ _ Hv) as (Hn & Hse & He & tr & Hst & Hgood & Hrun).
  set (n := len (standardizeIP startIP)) in *.
  set (s := addr (standardizeIP startIP)) in *.
  set (e := addr (standardizeIP endIP)) in *.
  exists (map (mkBlock n) tr). split; [exists (length tr); apply Hrun; lia|].
  rewrite map_map. rewrite (map_ext_in _ (fun p => 2 ^ Z.of_nat (snd p))).
  - rewrite (steps_sum n e s tr) by (trivial; lia). lia.
  - intros p Hin. rewrite Forall_forall in Hgood. unfold blockSize.
    now rewrite (mkBlock_hostBits n e p Hn He (Hgood p Hin)).
Qed.

Lemma block_sizes_sum_witness :
  let startIP := ip4 xc0 xa8 x01 x00 in
  let endIP := ip4 xc0 xa8 x02 xff in
  validRange startIP endIP /\
  exists cidrs,
    Returns startIP endIP (cidrs, None) /\
    total (map blockSize cidrs)
    = addr (standardizeIP endIP) - addr (standardizeIP startIP) + 1.
Proof.
  intros startIP endIP.
  assert (Hv : validRange startIP endIP) by valid_by_eval.
  split; [exact Hv | exact (block_sizes_sum startIP endIP Hv)].
Defined.

(** X17.  On a valid range every returned block has an address as long as
    the normalised start address (4 or 16 bytes), a non-nil mask of the
    same length, and a prefix length from 1 to the width: the call never
    returns a /0 block. *)
Theorem blocks_shape startIP endIP :
  validRange startIP endIP ->
  exists cidrs,
    Returns startIP endIP (cidrs, None) /\
    Forall (fun b =>
              len (IP_ b) = len (standardizeIP startIP) /\
              Mask b <> None /\
              len (Mask b) = len (standardizeIP startIP) /\
              1 <= prefixLength b <= width b) cidrs.
Proof.
  intros Hv. destruct (valid_run _ _ Hv) as (Hn & Hse & He & tr & Hst & Hgood & Hrun).
  set (n := len (standardizeIP startIP)) in *.
  set (e := addr (standardizeIP endIP)) in *.
  exists (map (mkBlock n) tr). split; [exists (length tr); apply Hrun; lia|].
  rewrite Forall_map. eapply Forall_impl; [|exact Hgood].
  cbv beta. intros p Hp.
  rewrite (mkBlock_prefixLength n e p Hn He Hp), (mkBlock_width n e p Hn He Hp).
  destruct Hp as (H0 & Hk & _). unfold mkBlock. cbn [IP_ Mask len].
  rewrite CIDRMask_some by (trivial; lia). cbn [len].
  rewrite length_toBytes, length_maskBytes.
  repeat split; try lia. discriminate.
Qed.

Lemma blocks_shape_witness :
  let startIP := ip4 x00 x00 x00 x00 in
  let endIP := ip4 xff xff xff xff in
  validRange startIP endIP /\
  exists cidrs,
    Returns startIP endIP (cidrs, None) /\
    Forall (fun b =>
              len (IP_ b) = len (standardizeIP startIP) /\
              Mask b <> None /\
              len (Mask b) = len (standardizeIP startIP) /\
              1 <= prefixLength b <= width b) cidrs.
Proof.
  intros startIP endIP.
  assert (Hv : validRange startIP endIP) by valid_by_eval.
  split; [exact Hv | exact (blocks_shape startIP endIP Hv)].
Defined.

(** X18.  On a valid range that is not the whole address space, no two
    consecutive returned blocks are the two halves of a CIDR block: they
    never have the same prefix length with the first one aligned to twice
    its size. *)
Theorem adjacent_not_mergeable startIP endIP :
  validRange startIP endIP ->
  addr (standardizeIP endIP) - addr (standardizeIP startIP) + 1
  < 2 ^ Z.of_nat (len (standardizeIP startIP) * 8) ->
  exists cidrs,
    Returns startIP endIP (cidrs, None) /\
    forall i b1 b2,
      nth_error cidrs i = Some b1 -> nth_error cidrs (S i) = Some b2 ->
      ~ (prefixLength b1 = prefixLength b2 /\
         networkAddress b1 mod (2 * blockSize b1) = 0).
Proof.
  intros Hv Hnw.
  destruct (valid_run _ _ Hv) as (Hn & Hse & He & tr & Hst & Hgood & Hrun).
  set (n := len (standardizeIP startIP)) in *.
  set (s := addr (standardizeIP startIP)) in *.
  set (e := addr (standardizeIP endIP)) in *.
  rewrite Forall_forall in Hgood.
  exists (map (mkBlock n) tr). split; [exists (length tr); apply Hrun; lia|].
  intros i b1 b2 H1 H2 [Hpre Hal]. apply nth_error_map_inv in H1, H2.
  destruct H1 as (p & H1 & ->), H2 as (q & H2 & ->).
  pose proof (Hgood p (nth_error_In _ _ H1)) as Hp.
  pose proof (Hgood q (nth_error_In _ _ H2)) as Hq.
  unfold blockSize in Hal.
  rewrite (mkBlock_networkAddress n e p Hn He Hp),
    (mkBlock_hostBits n e p Hn He Hp), <- pow2_S in Hal.
  rewrite (mkBlock_prefixLength n e p Hn He Hp),
    (mkBlock_prefixLength n e q Hn He Hq) in Hpre.
  destruct (steps_nth n e s tr Hst _ _ H1) as [Hps Hpk].
  destruct (steps_nth n e s tr Hst _ _ H2) as [Hqs Hqk].
  pose proof (steps_chain n e s tr Hst _ _ _ H1 H2) as Hch.
  assert (Hkk : snd q = snd p) by lia.
  rewrite Hch in Hqs. rewrite Hch, Hkk in Hqk.
  pose proof (blockExp_adjacent n e ltac:(lia) (fst p) ltac:(lia)) as Hadj.
  cbv zeta in Hadj. rewrite <- Hpk in Hadj.
  specialize (Hadj ltac:(lia) (eq_sym Hqk) Hal).
  (* the two halves are the whole space *)
  destruct Hp as (Hp0 & _ & _ & _). destruct Hq as (_ & _ & _ & Hqf).
  rewrite Hch, Hkk in Hqf.
  pose proof (aligned_pos_ge (fst p) (S (snd p)) Hal) as Hge.
  rewrite Hadj in Hge. rewrite pow256 in He.
  assert (Hp00 : fst p = 0) by lia.
  assert (Hw2 : 2 ^ Z.of_nat (n * 8) = 2 * 2 ^ Z.of_nat (snd p))
    by (rewrite <- Hadj; apply pow2_S).
  lia.
Qed.

Lemma adjacent_not_mergeable_witness :
  let startIP := ip4 xc0 xa8 x01 x00 in
  let endIP := ip4 xc0 xa8 x02 xff in
  (validRange startIP endIP /\
   addr (standardizeIP endIP) - addr (standardizeIP startIP) + 1
   < 2 ^ Z.of_nat (len (standardizeIP startIP) * 8)) /\
  exists cidrs,
    Returns startIP endIP (cidrs, None) /\
    forall i b1 b2,
      nth_error cidrs i = Some b1 -> nth_error cidrs (S i) = Some b2 ->
      ~ (prefixLength b1 = prefixLength b2 /\
         networkAddress b1 mod (2 * blockSize b1) = 0).
Proof.
  intros startIP endIP.
  assert (Hv : validRange startIP endIP) by valid_by_eval.
  assert (Hs : addr (standardizeIP endIP) - addr (standardizeIP startIP) + 1
               < 2 ^ Z.of_nat (len (standardizeIP startIP) * 8))
    by (vm_compute; reflexivity).
  split; [split; assumption | exact (adjacent_not_mergeable startIP endIP Hv Hs)].
Defined.

(** ** [Range2CIDRs]: calls on parts of the range *)

Lemma isV4Mapped_short l : length l <> 16%nat -> isV4Mapped l = false.
Proof.
  intros H. destruct (isV4Mapped l) eqn:E; [|reflexivity].
  apply isV4Mapped_length in E. contradiction.
Qed.

(** A normalised address is never in the IPv4-mapped form. *)
Lemma standardizeIP_not_mapped ip : isV4Mapped (bytes (standardizeIP ip)) = false.
Proof.
  destruct ip as [l|]; [|reflexivity].
  destruct (standardizeIP_cases l)
    as [[H4 ->] | [[Hm ->] | [(H16 & Hm & ->) | (_ & _ & ->)]]]; cbn [bytes].
  - apply isV4Mapped_short. lia.
  - apply isV4Mapped_short. apply isV4Mapped_length in Hm.
    rewrite length_firstn, length_skipn, Hm. cbn. lia.
  - exact Hm.
  - reflexivity.
Qed.

(** A normalised address is the slice that holds its own value. *)
Lemma standardizeIP_ofAddr ip :
  standardizeIP ip <> None ->
  standardizeIP ip = ofAddr (len (standardizeIP ip)) (addr (standardizeIP ip)).
Proof.
  unfold ofAddr, addr. destruct (standardizeIP ip) as [l|]; [|congruence].
  intros _. cbn [len bytes]. now rewrite toBytes_SetBytes.
Qed.

(** The call on two addresses given as [n]-byte slices that normalisation
    leaves alone returns the blocks of the trace between them. *)
Lemma Range2CIDRs_canonical n a b tr :
  n = 4%nat \/ n = 16%nat -> 0 <= a <= b -> b < 256 ^ Z.of_nat n ->
  isV4Mapped (toBytes n a) = false -> isV4Mapped (toBytes n b) = false ->
  steps n b a tr ->
  Returns (ofAddr n a) (ofAddr n b) (map (mkBlock n) tr, None).
Proof.
  intros Hn Hab Hb Ma Mb Hst. unfold ofAddr.
  pose proof (standardizeIP_same n (toBytes n a) Hn (length_toBytes n a) Ma) as Sa.
  pose proof (standardizeIP_same n (toBytes n b) Hn (length_toBytes n b) Mb) as Sb.
  destruct (Range2CIDRs_run (toBytes n a) (toBytes n b)) as (tr' & Hst' & Hrun).
  - rewrite Sa, Sb. cbn [len]. now rewrite !length_toBytes.
  - rewrite Sa, Sb. unfold addr. cbn [bytes]. rewrite !SetBytes_toBytes by lia. lia.
  - rewrite Sa, Sb in Hst'. unfold addr in Hst'. cbn [bytes len] in Hst'.
    rewrite length_toBytes, !SetBytes_toBytes in Hst' by lia.
    rewrite (steps_fun _ _ _ _ Hst _ Hst').
    exists (length tr'). rewrite Sa in Hrun. cbn [len] in Hrun.
    rewrite length_toBytes in Hrun. apply Hrun. lia.
Qed.

(** Restarting the loop at the start of a later round gives the rest of
    the trace. *)
Lemma steps_suffix n e s tr :
  steps n e s tr ->
  forall i p, nth_error tr i = Some p -> steps n e (fst p) (skipn i tr).
Proof.
  induction 1 as [s Hs | s tr Hs Hst IH]; intros i p Hi.
  - destruct i; discriminate.
  - destruct i as [|i]; cbn in Hi.
    + injection Hi as <-. cbn [fst skipn]. now constructor.
    + cbn [skipn]. exact (IH i p Hi).
Qed.

(** Moving the end of the range back, but not into the block, does not
    change the block taken by a round. *)
Lemma blockExp_shrink w s e e' :
  (0 < w)%nat -> s <= e ->
  s + 2 ^ Z.of_nat (blockExp w s e) - 1 <= e' -> e' <= e ->
  blockExp w s e' = blockExp w s e.
Proof.
  intros Hw Hse Hlo Hhi. pose proof (pow2_pos (blockExp w s e)) as Hp.
  destruct (blockExp_spec w s e Hw Hse) as (Hk & Hal & Hfit & Hmax).
  destruct (blockExp_spec w s e' Hw ltac:(lia)) as (Hk' & Hal' & Hfit' & Hmax').
  apply Nat.le_antisymm.
  - apply Hmax; trivial. lia.
  - apply Hmax'; trivial.
Qed.

Lemma steps_cons n e s k tr :
  s <= e -> blockExp (n * 8) s e = k ->
  steps n e (s + 2 ^ Z.of_nat k) tr -> steps n e s ((s, k) :: tr).
Proof. intros Hs <- Hst. now constructor. Qed.

(** Stopping the loop at the end of a round gives the trace up to it. *)
Lemma steps_prefix n e s tr :
  (0 < n)%nat -> steps n e s tr ->
  forall i p, nth_error tr i = Some p ->
    steps n (fst p + 2 ^ Z.of_nat (snd p) - 1) s (firstn (S i) tr).
Proof.
  intros Hn. induction 1 as [s Hs | s tr Hs Hst IH]; intros i p Hi.
  - destruct i; discriminate.
  - pose proof (pow2_pos (blockExp (n * 8) s e)) as Hp0.
    destruct (blockExp_spec (n * 8) s e ltac:(lia) Hs) as (_ & _ & Hfit & _).
    destruct i as [|i]; cbn in Hi.
    + injection Hi as <-. cbn [fst snd firstn].
      apply steps_cons; [lia | apply blockExp_shrink; trivial; lia |].
      constructor. lia.
    + destruct (steps_nth n e _ tr Hst i p Hi) as [[Hlo Hhi] Hpk].
      pose proof (pow2_pos (snd p)) as Hp1.
      destruct (blockExp_spec (n * 8) (fst p) e ltac:(lia) Hhi) as (_ & _ & Hfp & _).
      rewrite <- Hpk in Hfp.
      change (firstn (S (S i)) ((s, blockExp (n * 8) s e) :: tr))
        with ((s, blockExp (n * 8) s e) :: firstn (S i) tr).
      apply steps_cons; [lia | apply blockExp_shrink; trivial; lia |].
      exact (IH i p Hi).
Qed.

(** X19.  The rest of a decomposition is the decomposition of the rest: on
    a valid range, for the block at position [i] of the result, provided
    its network address is not an IPv4-mapped IPv6 address, the call on
    that network address and the normalised end returns the blocks from
    position [i] on. *)
Theorem redecompose_suffix startIP endIP :
  validRange startIP endIP ->
  exists cidrs,
    Returns startIP endIP (cidrs, None) /\
    forall i B, nth_error cidrs i = Some B ->
      isV4Mapped (bytes (IP_ B)) = false ->
      Returns (IP_ B) (standardizeIP endIP) (skipn i cidrs, None).
Proof.
  intros Hv. destruct (valid_run _ _ Hv) as (Hn & Hse & He & tr & Hst & Hgood & Hrun).
  destruct Hv as (_ & _ & Hlen & Hn0 & _).
  set (n := len (standardizeIP startIP)) in *.
  set (s := addr (standardizeIP startIP)) in *.
  set (e := addr (standardizeIP endIP)) in *.
  exists (map (mkBlock n) tr). split; [exists (length tr); apply Hrun; lia|].
  intros i B HB HmB. apply nth_error_map_inv in HB. destruct HB as (p & Hi & ->).
  rewrite Forall_forall in Hgood.
  destruct (Hgood p (nth_error_In _ _ Hi)) as (Hp0 & _).
  destruct (steps_nth n e s tr Hst i p Hi) as [Hpe _].
  rewrite skipn_map.
  rewrite (standardizeIP_ofAddr endIP) by (intros E; rewrite E in Hlen; cbn in Hlen; lia).
  rewrite <- Hlen. fold n e. unfold mkBlock at 1. cbn [IP_].
  apply (Range2CIDRs_canonical n (fst p) e); trivial; try lia.
  - pose proof (standardizeIP_not_mapped endIP) as Hm.
    rewrite (standardizeIP_ofAddr endIP) in Hm
      by (intros E; rewrite E in Hlen; cbn in Hlen; lia).
    rewrite <- Hlen in Hm. exact Hm.
  - exact (steps_suffix n e s tr Hst i p Hi).
Qed.

Lemma redecompose_suffix_witness :
  let startIP := ip4 xc0 xa8 x01 x00 in
  let endIP := ip4 xc0 xa8 x02 xff in
  validRange startIP endIP /\
  exists cidrs,
    Returns startIP endIP (cidrs, None) /\
    forall i B, nth_error cidrs i = Some B ->
      isV4Mapped (bytes (IP_ B)) = false ->
      Returns (IP_ B) (standardizeIP endIP) (skipn i cidrs, None).
Proof.
  intros startIP endIP.
  assert (Hv : validRange startIP endIP) by valid_by_eval.
  split; [exact Hv | exact (redecompose_suffix startIP endIP Hv)].
Defined.

(** X20.  The beginning of a decomposition is the decomposition of the
    beginning: on a valid range, for the block at position [i] of the
    result, provided its last address is not an IPv4-mapped IPv6 address,
    the call on the normalised start and that last address returns the
    blocks up to position [i]. *)
Theorem redecompose_prefix startIP endIP :
  validRange startIP endIP ->
  exists cidrs,
    Returns startIP endIP (cidrs, None) /\
    forall i B, nth_error cidrs i = Some B ->
      let lastIP := ofAddr (len (IP_ B)) (lastAddress B) in
      isV4Mapped (bytes lastIP) = false ->
      Returns (standardizeIP startIP) lastIP (firstn (S i) cidrs, None).
Proof.
  intros Hv. destruct (valid_run _ _ Hv) as (Hn & Hse & He & tr & Hst & Hgood & Hrun).
  destruct Hv as (_ & _ & Hlen & Hn0 & _).
  set (n := len (standardizeIP startIP)) in *.
  set (s := addr (standardizeIP startIP)) in *.
  set (e := addr (standardizeIP endIP)) in *.
  exists (map (mkBlock n) tr). split; [exists (length tr); apply Hrun; lia|].
  intros i B HB lastIP HmB. apply nth_error_map_inv in HB.
  destruct HB as (p & Hi & ->).
  rewrite Forall_forall in Hgood.
  pose proof (Hgood p (nth_error_In _ _ Hi)) as Hp.
  unfold lastIP in *. clear lastIP.
  rewrite (mkBlock_lastAddress n e p Hn He Hp) in *.
  unfold mkBlock in HmB |- * at 1. cbn [IP_ len] in HmB |- *.
  rewrite length_toBytes in HmB |- *.
  destruct Hp as (Hp0 & _ & _ & Hpf).
  destruct (steps_nth n e s tr Hst i p Hi) as [Hpe _].
  pose proof (pow2_pos (snd p)) as Hpp.
  rewrite firstn_map.
  rewrite (standardizeIP_ofAddr startIP) by (intros E; fold n in Hn0; unfold n in Hn0; rewrite E in Hn0; cbn in Hn0; lia).
  fold n s.
  apply (Range2CIDRs_canonical n s (fst p + 2 ^ Z.of_nat (snd p) - 1));
    trivial; try lia.
  - pose proof (standardizeIP_not_mapped startIP) as Hm.
    rewrite (standardizeIP_ofAddr startIP) in Hm
      by (intros E; unfold n in Hn0; rewrite E in Hn0; cbn in Hn0; lia).
    exact Hm.
  - exact (steps_prefix n e s tr ltac:(lia) Hst i p Hi).
Qed.

Lemma redecompose_prefix_witness :
  let startIP := ip4 xc0 xa8 x01 x00 in
  let endIP := ip4 xc0 xa8 x02 xff in
  validRange startIP endIP /\
  exists cidrs,
    Returns startIP endIP (cidrs, None) /\
    forall i B, nth_error cidrs i = Some B ->
      let lastIP := ofAddr (len (IP_ B)) (lastAddress B) in
      isV4Mapped (bytes lastIP) = false ->
      Returns (standardizeIP startIP) lastIP (firstn (S i) cidrs, None).
Proof.
  intros startIP endIP.
  assert (Hv : validRange startIP endIP) by valid_by_eval.
  split; [exact Hv | exact (redecompose_prefix startIP endIP Hv)].
Defined.
